(** * Chrono-DB: bitemporal store, CRDT registry and Raft node

    A shallow embedding of [db_engine.go], [crdt.go] and [raft.go], and the
    properties of the design document checked against it.

    Conventions of the embedding:
    - a Go [time.Time] is the instant it denotes, an integer count of
      nanoseconds; [After], [Before] and [Equal] compare instants;
    - [int64] values are integers of [Z] and every [+=] on them wraps;
    - [interface{}] values are the type [any]; the code stores and returns
      them and never looks inside;
    - a Go map is a [gmap]; reading a missing key gives the zero value;
    - the mutexes are not modelled: every method holds its lock from entry to
      exit, so each method is one atomic state transformer. *)

From Stdlib Require Import ZArith String List Lia Permutation.
From stdpp Require Import base option list gmap strings fin_maps.

Local Open Scope Z_scope.

(** ** Go values shared by the three files *)

Definition Time := Z.

Definition After (t u : Time) : bool := u <? t.
Definition Before (t u : Time) : bool := t <? u.
Definition Equal (t u : Time) : bool := t =? u.

(** [interface{}]: nil, a number, a string, or an object with named fields
    (what a decoded request body or a command can carry). *)
Inductive any : Type :=
  | Nil
  | Num (n : Z)
  | Str (s : string)
  | Obj (fs : fields)
with fields : Type :=
  | no_fields
  | field (name : string) (v : any) (rest : fields).

(** The [error] interface: nil, or an error carrying its message. *)
Inductive error : Type :=
  | nil_error
  | Errorf (msg : string).

(** A slice is nil or holds elements; [len] and [append] treat nil as empty,
    [append] always gives a slice that is not nil. *)
Inductive slice (A : Type) : Type :=
  | nil_slice
  | make_slice (l : list A).
Arguments nil_slice {A}.
Arguments make_slice {A} l.

Definition elems {A} (s : slice A) : list A :=
  match s with
  | nil_slice => []
  | make_slice l => l
  end.

Definition len {A} (s : slice A) : nat := length (elems s).

Definition append {A} (s : slice A) (x : A) : slice A :=
  make_slice (elems s ++ [x]).

Definition is_nil {A} (s : slice A) : bool :=
  match s with
  | nil_slice => true
  | make_slice _ => false
  end.

(** [int64] arithmetic: the result of [+] reduced to the signed 64-bit range. *)
Definition min_int64 : Z := - 2 ^ 63.
Definition max_int64 : Z := 2 ^ 63 - 1.
Definition wrap64 (z : Z) : Z := (z + 2 ^ 63) mod 2 ^ 64 - 2 ^ 63.
Definition in_int64 (z : Z) : Prop := min_int64 <= z <= max_int64.

(** ** db_engine.go *)

Module Temporal.

Record TemporalRecord : Type := {
  Key : string;
  Value : any;
  ValidTimeStart : Time;
  ValidTimeEnd : Time;
  TransactionTime : Time;
  Metadata : gmap string any
}.

Record DBEngine : Type := {
  data : gmap string (slice TemporalRecord);
  dataDir : string
}.

(** What [loadData] finds in the data directory. *)
Inductive disk : Type :=
  | NoFile
  | Unreadable (msg : string)
  | FileWith (content : gmap string (slice TemporalRecord)).

(** [NewDBEngine]: [mkdir] is the outcome of [os.MkdirAll]. *)
Definition NewDBEngine (mkdir : error) (d : disk) (dir : string)
  : option DBEngine * error :=
  match mkdir with
  | Errorf m => (None, Errorf m)
  | nil_error =>
    match d with
    | NoFile => (Some {| data := ∅; dataDir := dir |}, nil_error)
    | Unreadable m => (None, Errorf m)
    | FileWith content => (Some {| data := content; dataDir := dir |}, nil_error)
    end
  end.

(** [db.data[key]]: the stored slice, the nil slice for a missing key. *)
Definition records_of (db : DBEngine) (key : string) : slice TemporalRecord :=
  default nil_slice (data db !! key).

(** [Insert]: [now] is the reading of [time.Now()], [persist] the outcome of
    [persistData]; the record is appended before persisting and stays
    appended whatever [persistData] returns. *)
Definition Insert (now : Time) (persist : error) (db : DBEngine)
    (key : string) (value : any) (validStart validEnd : Time)
  : DBEngine * error :=
  let record := {| Key := key; Value := value;
                   ValidTimeStart := validStart; ValidTimeEnd := validEnd;
                   TransactionTime := now; Metadata := ∅ |} in
  ({| data := <[key := append (records_of db key) record]> (data db);
      dataDir := dataDir db |},
   persist).

(** The loop of [QueryTemporal]: [n] is the loop variable plus one, so the
    record inspected is [records[n-1]] and the loop ends at [n = 0]. The
    index is always in range; the [None] branch is never taken. *)
Fixpoint scan (records : list TemporalRecord) (asOfTime validTime : Time)
    (n : nat) : any * bool :=
  match n with
  | O => (Nil, false)
  | S i =>
    match records !! i with
    | None => (Nil, false)
    | Some rec =>
      if After (TransactionTime rec) asOfTime then
        scan records asOfTime validTime i
      else if After validTime (ValidTimeStart rec)
              && Before validTime (ValidTimeEnd rec) then
        (Value rec, true)
      else scan records asOfTime validTime i
    end
  end.

Definition QueryTemporal (db : DBEngine) (key : string)
    (asOfTime validTime : Time) : any * bool :=
  match data db !! key with
  | None => (Nil, false)
  | Some records => scan (elems records) asOfTime validTime (len records)
  end.

(** [QueryCurrent]: the two calls of [time.Now()] are two readings. *)
Definition QueryCurrent (now1 now2 : Time) (db : DBEngine) (key : string)
  : any * bool :=
  QueryTemporal db key now1 now2.

(** [GetHistory]: the literal [[]TemporalRecord{}] and the result of [make]
    are both slices that are not nil. *)
Definition GetHistory (db : DBEngine) (key : string) : slice TemporalRecord :=
  match data db !! key with
  | None => make_slice []
  | Some records => make_slice (elems records)
  end.

(** *** Auxiliary definitions for the statements *)

(** The test the loop applies to one record. *)
Definition matches (asOfTime validTime : Time) (rec : TemporalRecord) : bool :=
  negb (After (TransactionTime rec) asOfTime)
  && (After validTime (ValidTimeStart rec)
      && Before validTime (ValidTimeEnd rec)).

(** The position of the record whose value the loop returns. *)
Fixpoint selected (records : list TemporalRecord) (asOfTime validTime : Time)
    (n : nat) : option nat :=
  match n with
  | O => None
  | S i =>
    match records !! i with
    | None => None
    | Some rec =>
      if matches asOfTime validTime rec then Some i
      else selected records asOfTime validTime i
    end
  end.

(** The history the store holds for a key: nothing for an unknown key. *)
Definition history_of (db : DBEngine) (key : string) : list TemporalRecord :=
  elems (records_of db key).

(** A record qualifies for a query when it was recorded no later than
    [asOf] and [validTime] lies strictly inside its valid interval. *)
Definition qualifies (asOf validTime : Time) (rec : TemporalRecord) : Prop :=
  TransactionTime rec <= asOf
  ∧ ValidTimeStart rec < validTime ∧ validTime < ValidTimeEnd rec.

(** The predicate of the design document, with the closed lower end:
    [recordedAt ≤ asOf] and [validFrom ≤ validTime < validTo]. *)
Definition matches_doc (asOf validTime : Time) (rec : TemporalRecord) : bool :=
  (TransactionTime rec <=? asOf)
  && ((ValidTimeStart rec <=? validTime) && (validTime <? ValidTimeEnd rec)).

(** [queryAsOf] as the design document words it: the first record, from the
    most recently inserted to the oldest, that satisfies [matches_doc]. *)
Definition queryAsOf_doc (db : DBEngine) (key : string)
    (asOf validTime : Time) : any * bool :=
  match find (matches_doc asOf validTime) (rev (history_of db key)) with
  | Some rec => (Value rec, true)
  | None => (Nil, false)
  end.

(** An engine with no data, as [NewDBEngine] gives it on an empty directory. *)
Definition empty_engine : DBEngine := {| data := ∅; dataDir := "data" |}.

End Temporal.

(** ** crdt.go *)

Module CRDT.

Record GCounter : Type := {
  NodeCounts : gmap string Z
}.

Record LWWRegister : Type := {
  Value : any;
  Timestamp : Time;
  NodeID : string
}.

Record CRDTStore : Type := {
  gcounter : gmap string GCounter;
  lww : gmap string LWWRegister
}.

Definition NewCRDTStore : CRDTStore := {| gcounter := ∅; lww := ∅ |}.

(** [gc.NodeCounts[nodeID]]: zero for a node that has no entry. A nil map
    reads like an empty one, and no method writes to a map that is nil. *)
Definition count_of (gc : GCounter) (nodeID : string) : Z :=
  default 0 (NodeCounts gc !! nodeID).

(** [GCounter{NodeCounts: make(map[string]int64)}] *)
Definition fresh_counter : GCounter := {| NodeCounts := ∅ |}.

(** [c.gcounter[key]] with the fresh counter taken when the key is missing. *)
Definition counter_at (c : CRDTStore) (key : string) : GCounter :=
  default fresh_counter (gcounter c !! key).

Definition IncrementCounter (c : CRDTStore) (key nodeID : string) (delta : Z)
  : CRDTStore :=
  let gc := counter_at c key in
  let gc' := {| NodeCounts :=
                  <[nodeID := wrap64 (count_of gc nodeID + delta)]>
                    (NodeCounts gc) |} in
  {| gcounter := <[key := gc']> (gcounter c); lww := lww c |}.

(** The loop of [GetCounter]; the order in which a map is ranged over does
    not change a wrapped sum. *)
Definition total_of (gc : GCounter) : Z :=
  map_fold (λ (_ : string) (count total : Z), wrap64 (total + count)) 0
           (NodeCounts gc).

Definition GetCounter (c : CRDTStore) (key : string) : Z :=
  match gcounter c !! key with
  | None => 0
  | Some gc => total_of gc
  end.

(** [a > b] on Go strings: bytewise lexicographic order. *)
Definition string_gt (a b : string) : bool := String.ltb b a.

(** The condition under which [SetLWW] and [MergeLWW] overwrite [existing]. *)
Definition supersedes (timestamp : Time) (nodeID : string)
    (existing : LWWRegister) : bool :=
  After timestamp (Timestamp existing)
  || (Equal timestamp (Timestamp existing)
      && string_gt nodeID (NodeID existing)).

Definition SetLWW (c : CRDTStore) (key : string) (value : any)
    (timestamp : Time) (nodeID : string) : CRDTStore :=
  let replace :=
    match lww c !! key with
    | None => true
    | Some existing => supersedes timestamp nodeID existing
    end in
  if replace then
    {| gcounter := gcounter c;
       lww := <[key := {| Value := value; Timestamp := timestamp;
                          NodeID := nodeID |}]> (lww c) |}
  else c.

Definition GetLWW (c : CRDTStore) (key : string) : any * bool :=
  match lww c !! key with
  | None => (Nil, false)
  | Some reg => (Value reg, true)
  end.

(** The body of the loop of [MergeCounter] for one entry of [other]. *)
Definition merge_entry (nodeID : string) (count : Z) (local : GCounter)
  : GCounter :=
  if count >? count_of local nodeID then
    {| NodeCounts := <[nodeID := count]> (NodeCounts local) |}
  else local.

(** The loop of [MergeCounter] over the entries of [other]. *)
Definition merge_into (local other : GCounter) : GCounter :=
  map_fold merge_entry local (NodeCounts other).

Definition MergeCounter (c : CRDTStore) (key : string) (other : GCounter)
  : CRDTStore :=
  let local := counter_at c key in
  {| gcounter := <[key := merge_into local other]> (gcounter c);
     lww := lww c |}.

Definition MergeLWW (c : CRDTStore) (key : string) (other : LWWRegister)
  : CRDTStore :=
  let replace :=
    match lww c !! key with
    | None => true
    | Some local => supersedes (Timestamp other) (NodeID other) local
    end in
  if replace then {| gcounter := gcounter c; lww := <[key := other]> (lww c) |}
  else c.

(** The sum of the components of a counter, without wrapping. *)
Definition sum_counts (m : gmap string Z) : Z :=
  map_fold (λ (_ : string) (count total : Z), total + count) 0 m.

(** *** Two replicas exchanging counter state *)

Inductive replica : Type := A | B.

(** Two stores and the counter states in flight between them. A message is
    a serialised copy of the sender's counter for one key. *)
Record Cluster : Type := {
  storeA : CRDTStore;
  storeB : CRDTStore;
  network : list (string * GCounter)
}.

Inductive Event : Type :=
  | Increment (at_ : replica) (key nodeID : string) (delta : Z)
  | Send (from : replica) (key : string)
  | Deliver (to : replica) (i : nat).

Definition store_of (cl : Cluster) (r : replica) : CRDTStore :=
  match r with A => storeA cl | B => storeB cl end.

Definition with_store (cl : Cluster) (r : replica) (c : CRDTStore) : Cluster :=
  match r with
  | A => {| storeA := c; storeB := storeB cl; network := network cl |}
  | B => {| storeA := storeA cl; storeB := c; network := network cl |}
  end.

(** A delivered message stays on the network: it may be delivered again, to
    either replica, and in any order with the others. *)
Definition step (cl : Cluster) (ev : Event) : Cluster :=
  match ev with
  | Increment r key nodeID delta =>
      with_store cl r (IncrementCounter (store_of cl r) key nodeID delta)
  | Send r key =>
      {| storeA := storeA cl; storeB := storeB cl;
         network := network cl ++ [(key, counter_at (store_of cl r) key)] |}
  | Deliver r i =>
      match network cl !! i with
      | None => cl
      | Some (key, other) =>
          with_store cl r (MergeCounter (store_of cl r) key other)
      end
  end.

Definition run (cl : Cluster) (evs : list Event) : Cluster :=
  fold_left step evs cl.

Definition start : Cluster :=
  {| storeA := NewCRDTStore; storeB := NewCRDTStore; network := [] |}.

(** An increment that keeps the counter a grow-only counter of [int64]:
    the delta is not negative and the component does not overflow. *)
Definition grows (cl : Cluster) (ev : Event) : Prop :=
  match ev with
  | Increment r key nodeID delta =>
      0 <= delta
      ∧ count_of (counter_at (store_of cl r) key) nodeID + delta <= max_int64
  | _ => True
  end.

Fixpoint all_grow (cl : Cluster) (evs : list Event) : Prop :=
  match evs with
  | [] => True
  | ev :: evs' => grows cl ev ∧ all_grow (step cl ev) evs'
  end.

(** Each replica merges the other's current counter for [key]. *)
Definition cross_merge (key : string) (cl : Cluster) : Cluster :=
  {| storeA := MergeCounter (storeA cl) key (counter_at (storeB cl) key);
     storeB := MergeCounter (storeB cl) key (counter_at (storeA cl) key);
     network := network cl |}.

(** All components of a counter are at least zero. *)
Definition nonneg (gc : GCounter) : Prop :=
  ∀ nodeID x, NodeCounts gc !! nodeID = Some x → 0 <= x.

Definition store_nonneg (c : CRDTStore) : Prop :=
  ∀ key, nonneg (counter_at c key).

Definition cluster_nonneg (cl : Cluster) : Prop :=
  store_nonneg (storeA cl) ∧ store_nonneg (storeB cl)
  ∧ ∀ key gc, (key, gc) ∈ network cl → nonneg gc.

(** *** Sequences of register writes *)

Inductive LWWCall : Type :=
  | CallSet (key : string) (value : any) (timestamp : Time) (nodeID : string)
  | CallMerge (key : string) (other : LWWRegister).

Definition call_key (call : LWWCall) : string :=
  match call with
  | CallSet key _ _ _ => key
  | CallMerge key _ => key
  end.

(** The register a call offers to the store. *)
Definition call_reg (call : LWWCall) : LWWRegister :=
  match call with
  | CallSet _ value timestamp nodeID =>
      {| Value := value; Timestamp := timestamp; NodeID := nodeID |}
  | CallMerge _ other => other
  end.

Definition do_call (c : CRDTStore) (call : LWWCall) : CRDTStore :=
  match call with
  | CallSet key value timestamp nodeID => SetLWW c key value timestamp nodeID
  | CallMerge key other => MergeLWW c key other
  end.

Definition do_calls (c : CRDTStore) (calls : list LWWCall) : CRDTStore :=
  fold_left do_call calls c.

(** The order on (timestamp, writer) pairs: the higher timestamp is greater,
    and on equal timestamps the greater writer id is. *)
Definition stamp_lt (r1 r2 : LWWRegister) : Prop :=
  Timestamp r1 < Timestamp r2
  ∨ (Timestamp r1 = Timestamp r2 ∧ String.ltb (NodeID r1) (NodeID r2) = true).

Definition stamp_eq (r1 r2 : LWWRegister) : Prop :=
  Timestamp r1 = Timestamp r2 ∧ NodeID r1 = NodeID r2.

Definition stamp_le (r1 r2 : LWWRegister) : Prop :=
  stamp_lt r1 r2 ∨ stamp_eq r1 r2.

End CRDT.

(** ** raft.go *)

Module Raft.

Inductive RaftState : Type := Follower | Candidate | Leader.

Record LogEntry : Type := {
  Term : Z;
  Index : Z;
  Command : any
}.

(** [db] and [crdtStore] are pointers in the source; the fields here hold the
    objects they point at, so a method that wrote through a pointer would
    change the field. [shutdownCh] is [true] once the channel is closed. *)
Record RaftNode : Type := {
  nodeID : string;
  raftPort : Z;
  peers : gmap string string;
  state : RaftState;
  currentTerm : Z;
  votedFor : string;
  log : list LogEntry;
  commitIndex : Z;
  lastApplied : Z;
  db : Temporal.DBEngine;
  crdtStore : CRDT.CRDTStore;
  dataDir : string;
  shutdownCh : bool
}.

Definition NewRaftNode (nodeID : string) (raftPort : Z) (dataDir : string)
    (db : Temporal.DBEngine) (crdtStore : CRDT.CRDTStore)
  : RaftNode * error :=
  ({| nodeID := nodeID; raftPort := raftPort; peers := ∅;
      state := Follower; currentTerm := 0; votedFor := "";
      log := []; commitIndex := 0; lastApplied := 0;
      db := db; crdtStore := crdtStore; dataDir := dataDir;
      shutdownCh := false |},
   nil_error).

Definition Join (r : RaftNode) (id addr leaderAddr : string)
  : RaftNode * error :=
  ({| nodeID := nodeID r; raftPort := raftPort r;
      peers := <[id := addr]> (peers r);
      state := state r; currentTerm := currentTerm r; votedFor := votedFor r;
      log := log r; commitIndex := commitIndex r; lastApplied := lastApplied r;
      db := db r; crdtStore := crdtStore r; dataDir := dataDir r;
      shutdownCh := shutdownCh r |},
   nil_error).

Definition startElection (r : RaftNode) : RaftNode :=
  {| nodeID := nodeID r; raftPort := raftPort r; peers := peers r;
     state := if decide (size (peers r) = 0%nat) then Leader else state r;
     currentTerm := wrap64 (currentTerm r + 1); votedFor := nodeID r;
     log := log r; commitIndex := commitIndex r; lastApplied := lastApplied r;
     db := db r; crdtStore := crdtStore r; dataDir := dataDir r;
     shutdownCh := shutdownCh r |}.

(** [sendHeartbeats] only writes to the process log. *)
Definition sendHeartbeats (r : RaftNode) : RaftNode := r.

(** One firing of the ticker in [runConsensus]. *)
Definition tick (r : RaftNode) : RaftNode :=
  match state r with
  | Follower => r
  | Candidate => startElection r
  | Leader => sendHeartbeats r
  end.

(** [Apply]: [len(r.log)] is a Go [int], and no slice of log entries is long
    enough for [len(r.log) + 1] to leave the [int64] range, so the index is
    the length plus one. *)
Definition Apply (r : RaftNode) (command : any) : RaftNode * error :=
  let entry := {| Term := currentTerm r;
                  Index := Z.of_nat (length (log r)) + 1;
                  Command := command |} in
  ({| nodeID := nodeID r; raftPort := raftPort r; peers := peers r;
      state := state r; currentTerm := currentTerm r; votedFor := votedFor r;
      log := log r ++ [entry];
      commitIndex := Index entry; lastApplied := Index entry;
      db := db r; crdtStore := crdtStore r; dataDir := dataDir r;
      shutdownCh := shutdownCh r |},
   nil_error).

Definition GetState (r : RaftNode) : string * Z :=
  (match state r with
   | Leader => "leader"
   | Candidate => "candidate"
   | Follower => "follower"
   end, currentTerm r).

Definition Shutdown (r : RaftNode) : RaftNode * error :=
  ({| nodeID := nodeID r; raftPort := raftPort r; peers := peers r;
      state := state r; currentTerm := currentTerm r; votedFor := votedFor r;
      log := log r; commitIndex := commitIndex r; lastApplied := lastApplied r;
      db := db r; crdtStore := crdtStore r; dataDir := dataDir r;
      shutdownCh := true |},
   nil_error).

(** *** Auxiliary definitions for the statements *)

(** The state of a node relates its log and its two indices: both indices
    equal the length of the log, and the entry at position [i] (from 0)
    carries the index [i + 1]. *)
Definition log_inv (r : RaftNode) : Prop :=
  commitIndex r = Z.of_nat (length (log r))
  ∧ lastApplied r = Z.of_nat (length (log r))
  ∧ ∀ (i : nat) e, log r !! i = Some e → Index e = Z.of_nat i + 1.





End Raft.

(** ** api_server.go *)

Module API.

(** [main] hands the same engine and the same store to the Raft node and to
    the server, so [s.db] and [s.raftNode.db] are one object, and so are
    [s.crdtStore] and [s.raftNode.crdtStore]. *)
Record APIServer : Type := {
  port : Z;
  db : Temporal.DBEngine;
  raftNode : Raft.RaftNode;
  crdtStore : CRDT.CRDTStore
}.

Definition NewAPIServer (port : Z) (db : Temporal.DBEngine)
    (raftNode : Raft.RaftNode) (crdtStore : CRDT.CRDTStore) : APIServer :=
  {| port := port; db := db; raftNode := raftNode; crdtStore := crdtStore |}.

(** The server as [main] wires it: one engine and one store behind all the
    pointers. *)
Definition shared (s : APIServer) : Prop :=
  Raft.db (raftNode s) = db s ∧ Raft.crdtStore (raftNode s) = crdtStore s.

(** A write to the engine, seen through both pointers. *)
Definition write_db (s : APIServer) (db' : Temporal.DBEngine) : APIServer :=
  let r := raftNode s in
  {| port := port s; db := db';
     raftNode :=
       {| Raft.nodeID := Raft.nodeID r; Raft.raftPort := Raft.raftPort r;
          Raft.peers := Raft.peers r; Raft.state := Raft.state r;
          Raft.currentTerm := Raft.currentTerm r;
          Raft.votedFor := Raft.votedFor r; Raft.log := Raft.log r;
          Raft.commitIndex := Raft.commitIndex r;
          Raft.lastApplied := Raft.lastApplied r;
          Raft.db := db'; Raft.crdtStore := Raft.crdtStore r;
          Raft.dataDir := Raft.dataDir r;
          Raft.shutdownCh := Raft.shutdownCh r |};
     crdtStore := crdtStore s |}.

(** A write to the store, seen through both pointers. *)
Definition write_crdt (s : APIServer) (c' : CRDT.CRDTStore) : APIServer :=
  let r := raftNode s in
  {| port := port s; db := db s;
     raftNode :=
       {| Raft.nodeID := Raft.nodeID r; Raft.raftPort := Raft.raftPort r;
          Raft.peers := Raft.peers r; Raft.state := Raft.state r;
          Raft.currentTerm := Raft.currentTerm r;
          Raft.votedFor := Raft.votedFor r; Raft.log := Raft.log r;
          Raft.commitIndex := Raft.commitIndex r;
          Raft.lastApplied := Raft.lastApplied r;
          Raft.db := Raft.db r; Raft.crdtStore := c';
          Raft.dataDir := Raft.dataDir r;
          Raft.shutdownCh := Raft.shutdownCh r |};
     crdtStore := c' |}.

(** The body of an insert request once decoded. *)
Record InsertBody : Type := {
  body_key : string;
  body_value : any;
  body_valid_start : string;
  body_valid_end : string
}.

(** What a handler reads of a request: the method, the query parameters,
    and the outcome of decoding the body (the decoded fields, or the message
    of the decoding error). *)
Record Request : Type := {
  Method : string;
  Query : gmap string string;
  Body : InsertBody + string
}.

(** [r.URL.Query().Get(name)]: the empty string for a missing parameter. *)
Definition query_get (r : Request) (name : string) : string :=
  default "" (Query r !! name).

(** The values a handler puts in the JSON object it encodes. *)
Inductive jvalue : Type :=
  | JBool (b : bool)
  | JString (s : string)
  | JInt (n : Z)
  | JAny (v : any)
  | JRecords (h : slice Temporal.TemporalRecord).

(** What a handler writes: [http.Error] with a message and a status code,
    or a JSON object (the order of the entries of a Go map literal plays no
    part). *)
Inductive Response : Type :=
  | Error (msg : string) (code : Z)
  | Encode (body : list (string * jvalue)).

Definition StatusBadRequest : Z := 400.
Definition StatusMethodNotAllowed : Z := 405.
Definition StatusInternalServerError : Z := 500.
Definition MethodPost : string := "POST".

(** [time.Date(9999, 12, 31, 23, 59, 59, 0, time.UTC)], in nanoseconds
    since the Unix epoch. *)
Definition end_of_time : Time := 253402300799 * 10 ^ 9.

Section Handlers.

(** [time.Parse(time.RFC3339, _)] and [Format(time.RFC3339)] are library
    functions; the handlers are embedded over any such pair. *)
Variable parse : string → option Time.
Variable format : Time → string.

(** [if str != "" { if t, err := time.Parse(...); err == nil { x = t } }] *)
Definition parse_or (str : string) (dflt : Time) : Time :=
  if decide (str = "") then dflt
  else match parse str with
       | Some t => t
       | None => dflt
       end.

Definition handleRoot (s : APIServer) (r : Request) : APIServer * Response :=
  (s, Encode [("service", JString "Chrono-DB");
              ("version", JString "1.0.0");
              ("description",
               JString "Distributed temporal database with CRDT and Raft consensus")]).

(** [now1] is the reading of [time.Now()] in the handler, [now2] the one in
    [Insert], [persist] the outcome of [persistData]. *)
Definition handleInsert (now1 now2 : Time) (persist : error)
    (s : APIServer) (r : Request) : APIServer * Response :=
  if decide (Method r = MethodPost) then
    match Body r with
    | inr msg => (s, Error msg StatusBadRequest)
    | inl req =>
      let validStart := parse_or (body_valid_start req) now1 in
      let validEnd := parse_or (body_valid_end req) end_of_time in
      let '(db', err) :=
        Temporal.Insert now2 persist (db s) (body_key req) (body_value req)
                        validStart validEnd in
      match err with
      | Errorf msg => (write_db s db', Error msg StatusInternalServerError)
      | nil_error =>
        (write_db s db',
         Encode [("status", JString "success");
                 ("key", JString (body_key req))])
      end
    end
  else (s, Error "Method not allowed" StatusMethodNotAllowed).

Definition handleQuery (now1 now2 : Time) (s : APIServer) (r : Request)
  : APIServer * Response :=
  let key := query_get r "key" in
  if decide (key = "") then (s, Error "key parameter required" StatusBadRequest)
  else
    let '(value, found) := Temporal.QueryCurrent now1 now2 (db s) key in
    if negb found then
      (s, Encode [("found", JBool false); ("key", JString key)])
    else
      (s, Encode [("found", JBool true); ("key", JString key);
                  ("value", JAny value)]).

Definition handleHistory (s : APIServer) (r : Request) : APIServer * Response :=
  let key := query_get r "key" in
  if decide (key = "") then (s, Error "key parameter required" StatusBadRequest)
  else
    let history := Temporal.GetHistory (db s) key in
    (s, Encode [("key", JString key); ("history", JRecords history)]).

Definition handleTemporal (now1 now2 : Time) (s : APIServer) (r : Request)
  : APIServer * Response :=
  let key := query_get r "key" in
  let asOfStr := query_get r "as_of" in
  let validStr := query_get r "valid_time" in
  if decide (key = "") then (s, Error "key parameter required" StatusBadRequest)
  else
    let asOf := parse_or asOfStr now1 in
    let validTime := parse_or validStr now2 in
    let '(value, found) := Temporal.QueryTemporal (db s) key asOf validTime in
    (s, Encode [("found", JBool found); ("key", JString key);
                ("value", JAny value);
                ("as_of", JString (format asOf));
                ("valid_time", JString (format validTime))]).

Definition handleStatus (now : Time) (s : APIServer) (r : Request)
  : APIServer * Response :=
  let '(state, term) := Raft.GetState (raftNode s) in
  (s, Encode [("node_id", JString (Raft.nodeID (raftNode s)));
              ("raft_state", JString state);
              ("raft_term", JInt term);
              ("timestamp", JString (format now))]).

Definition handleCounter (s : APIServer) (r : Request) : APIServer * Response :=
  let key := query_get r "key" in
  if decide (key = "") then (s, Error "key parameter required" StatusBadRequest)
  else if decide (Method r = MethodPost) then
    (write_crdt s
       (CRDT.IncrementCounter (crdtStore s) key (Raft.nodeID (raftNode s)) 1),
     Encode [("status", JString "incremented"); ("key", JString key)])
  else
    let count := CRDT.GetCounter (crdtStore s) key in
    (s, Encode [("key", JString key); ("value", JInt count)]).

(** One call of a handler, with the clock readings and the outcome of
    persisting that it meets. *)
Inductive Call : Type :=
  | CallRoot (r : Request)
  | CallInsert (now1 now2 : Time) (persist : error) (r : Request)
  | CallQuery (now1 now2 : Time) (r : Request)
  | CallHistory (r : Request)
  | CallTemporal (now1 now2 : Time) (r : Request)
  | CallStatus (now : Time) (r : Request)
  | CallCounter (r : Request).

Definition serve (s : APIServer) (call : Call) : APIServer * Response :=
  match call with
  | CallRoot r => handleRoot s r
  | CallInsert now1 now2 persist r => handleInsert now1 now2 persist s r
  | CallQuery now1 now2 r => handleQuery now1 now2 s r
  | CallHistory r => handleHistory s r
  | CallTemporal now1 now2 r => handleTemporal now1 now2 s r
  | CallStatus now r => handleStatus now s r
  | CallCounter r => handleCounter s r
  end.

Definition serve_all (s : APIServer) (calls : list Call) : APIServer :=
  fold_left (λ s call, (serve s call).1) calls s.

End Handlers.

(** Requests as the command-line client and [curl] send them. *)
Definition get_request (key : string) : Request :=
  {| Method := "GET"; Query := {[ "key" := key ]}; Body := inr "EOF" |}.

Definition post_counter (key : string) : Request :=
  {| Method := "POST"; Query := {[ "key" := key ]}; Body := inr "EOF" |}.

Definition post_insert (req : InsertBody) : Request :=
  {| Method := "POST"; Query := ∅; Body := inl req |}.

End API.

(** ** Sequences of operations *)

(** One call of [Insert] with the clock reading and the outcome of
    persisting that it meets. *)
Record InsertCall : Type := {
  ic_now : Time;
  ic_persist : error;
  ic_key : string;
  ic_value : any;
  ic_start : Time;
  ic_end : Time
}.

Definition insert_call (db : Temporal.DBEngine) (c : InsertCall)
  : Temporal.DBEngine :=
  (Temporal.Insert (ic_now c) (ic_persist c) db (ic_key c) (ic_value c)
                   (ic_start c) (ic_end c)).1.

Definition insert_all (db : Temporal.DBEngine) (calls : list InsertCall)
  : Temporal.DBEngine :=
  fold_left insert_call calls db.

(** The record a call of [Insert] appends. *)
Definition record_of_call (c : InsertCall) : Temporal.TemporalRecord :=
  {| Temporal.Key := ic_key c; Temporal.Value := ic_value c;
     Temporal.ValidTimeStart := ic_start c; Temporal.ValidTimeEnd := ic_end c;
     Temporal.TransactionTime := ic_now c; Temporal.Metadata := ∅ |}.

(** What can happen to a running node: the ticker fires, or a method is
    called. *)
Inductive RaftOp : Type :=
  | OpTick
  | OpJoin (id addr leaderAddr : string)
  | OpApply (command : any).

Definition raft_step (r : Raft.RaftNode) (op : RaftOp) : Raft.RaftNode :=
  match op with
  | OpTick => Raft.tick r
  | OpJoin id addr leaderAddr => (Raft.Join r id addr leaderAddr).1
  | OpApply command => (Raft.Apply r command).1
  end.

Definition raft_run (r : Raft.RaftNode) (ops : list RaftOp) : Raft.RaftNode :=
  fold_left raft_step ops r.

(** The number of [Apply] calls among the operations. *)
Fixpoint applies (ops : list RaftOp) : nat :=
  match ops with
  | [] => O
  | OpApply _ :: ops' => S (applies ops')
  | _ :: ops' => applies ops'
  end.

(** ** main *)

(** The start of [main], up to the point where the HTTP server is started:
    [None] stands for the exit through [log.Fatalf]. [addr] is the string
    that [fmt.Sprintf("localhost:%d", *raftPort)] builds, and [join] the
    value of the flag of that name. *)
Definition main_start (mkdir : error) (d : Temporal.disk)
    (nodeID : string) (httpPort raftPort : Z) (join dataDir addr : string)
  : option API.APIServer :=
  match Temporal.NewDBEngine mkdir d dataDir with
  | (_, Errorf _) => None
  | (None, nil_error) => None
  | (Some db, nil_error) =>
    let crdtStore := CRDT.NewCRDTStore in
    let '(raftNode, _) := Raft.NewRaftNode nodeID raftPort dataDir db crdtStore in
    let raftNode :=
      if decide (join = "") then raftNode
      else (Raft.Join raftNode nodeID addr join).1 in
    Some (API.NewAPIServer httpPort db raftNode crdtStore)
  end.

(** * Properties *)

(** ** The temporal store *)

Section TemporalStore.
Import Temporal.

Lemma matches_qualifies asOf validTime rec :
  matches asOf validTime rec = true ↔ qualifies asOf validTime rec.
Proof.
  unfold matches, qualifies, After, Before.
  rewrite !andb_true_iff, negb_true_iff, Z.ltb_ge, !Z.ltb_lt. tauto.
Qed.

Lemma matches_false asOf validTime rec :
  matches asOf validTime rec = false ↔ ¬ qualifies asOf validTime rec.
Proof.
  rewrite <- matches_qualifies. destruct (matches asOf validTime rec); split;
    congruence.
Qed.

(** The loop returns the value stored at the selected position. *)
Lemma scan_selected records asOf validTime n :
  scan records asOf validTime n =
  match selected records asOf validTime n with
  | Some i =>
    match records !! i with
    | Some rec => (Value rec, true)
    | None => (Nil, false)
    end
  | None => (Nil, false)
  end.
Proof.
  induction n as [|i IH]; simpl; [done|].
  destruct (records !! i) as [rec|] eqn:Hi; [|done].
  unfold matches.
  destruct (After (TransactionTime rec) asOf); simpl; [exact IH|].
  destruct (After validTime (ValidTimeStart rec)
            && Before validTime (ValidTimeEnd rec)); simpl; [|exact IH].
  by rewrite Hi.
Qed.

(** The selected position is the greatest one below [n] whose record
    passes the test. *)
Lemma selected_Some records asOf validTime n i :
  (n <= length records)%nat →
  selected records asOf validTime n = Some i ↔
  (i < n)%nat
  ∧ (∃ rec, records !! i = Some rec ∧ matches asOf validTime rec = true)
  ∧ ∀ j rj, (i < j < n)%nat → records !! j = Some rj →
            matches asOf validTime rj = false.
Proof.
  induction n as [|m IH]; intros Hn; simpl.
  { split; [done | intros [? _]; lia]. }
  destruct (lookup_lt_is_Some_2 records m) as [rec Hm]; [lia|].
  rewrite Hm. destruct (matches asOf validTime rec) eqn:Hrec.
  - split.
    + intros [= <-]. split; [lia|]. split; [eauto|]. intros; lia.
    + intros (Hi & _ & Hlast). destruct (decide (i = m)) as [->|Hne]; [done|].
      assert (matches asOf validTime rec = false) by (apply (Hlast m); [lia|done]).
      congruence.
  - rewrite IH by lia. split.
    + intros (Hi & Hrec' & Hlast). split; [lia|]. split; [done|].
      intros j rj Hj Hlj. destruct (decide (j = m)) as [->|Hne].
      * congruence.
      * apply (Hlast j); [lia|done].
    + intros (Hi & (ri & Hri & Hmi) & Hlast).
      assert (i ≠ m) by (intros ->; congruence).
      split; [lia|]. split; [eauto|].
      intros j rj Hj. apply Hlast. lia.
Qed.

Lemma selected_None records asOf validTime n :
  (n <= length records)%nat →
  selected records asOf validTime n = None ↔
  ∀ j rj, (j < n)%nat → records !! j = Some rj →
          matches asOf validTime rj = false.
Proof.
  induction n as [|m IH]; intros Hn; simpl.
  { split; [intros; lia | done]. }
  destruct (lookup_lt_is_Some_2 records m) as [rec Hm]; [lia|].
  rewrite Hm. destruct (matches asOf validTime rec) eqn:Hrec.
  - split; [done|]. intros H. specialize (H m rec). rewrite H in Hrec; [done|lia|done].
  - rewrite IH by lia. split.
    + intros H j rj Hj Hlj. destruct (decide (j = m)) as [->|Hne];
        [congruence | apply (H j); [lia|done]].
    + intros H j rj Hj. apply H. lia.
Qed.

Lemma QueryTemporal_scan db key asOf validTime :
  QueryTemporal db key asOf validTime =
  scan (history_of db key) asOf validTime (length (history_of db key)).
Proof.
  unfold QueryTemporal, history_of, records_of, len.
  destruct (data db !! key); done.
Qed.

Lemma history_of_Insert now persist db key value validStart validEnd :
  history_of (Insert now persist db key value validStart validEnd).1 key =
  history_of db key ++
  [{| Key := key; Value := value; ValidTimeStart := validStart;
      ValidTimeEnd := validEnd; TransactionTime := now; Metadata := ∅ |}].
Proof.
  unfold history_of, records_of, Insert; simpl.
  by rewrite lookup_insert_eq.
Qed.

(** The record appended by [Insert]. *)
Lemma Insert_newest now persist db key value validStart validEnd :
  history_of (Insert now persist db key value validStart validEnd).1 key
    !! length (history_of db key)
  = Some {| Key := key; Value := value; ValidTimeStart := validStart;
            ValidTimeEnd := validEnd; TransactionTime := now; Metadata := ∅ |}.
Proof. rewrite history_of_Insert. by rewrite list_lookup_middle. Qed.

(** The outcomes of [QueryTemporal], in terms of the stored history. *)
Lemma QueryTemporal_outcomes db key asOf validTime :
  (∀ w, QueryTemporal db key asOf validTime = (w, true) ↔
        ∃ i rec, history_of db key !! i = Some rec
                 ∧ qualifies asOf validTime rec
                 ∧ w = Value rec
                 ∧ ∀ j rj, (i < j)%nat → history_of db key !! j = Some rj →
                           ¬ qualifies asOf validTime rj)
  ∧ (QueryTemporal db key asOf validTime = (Nil, false) ↔
     ∀ j rj, history_of db key !! j = Some rj → ¬ qualifies asOf validTime rj)
  ∧ (data db !! key = None → QueryTemporal db key asOf validTime = (Nil, false)).
Proof.
  rewrite QueryTemporal_scan, scan_selected.
  set (h := history_of db key).
  pose proof (selected_Some h asOf validTime (length h)) as HS.
  pose proof (selected_None h asOf validTime (length h) (le_n _)) as HN.
  split; [|split].
  - intros w. destruct (selected h asOf validTime (length h)) as [i|] eqn:Hsel.
    + destruct (proj1 (HS i (le_n _)) eq_refl) as (Hi & (rec & Hrec & Hm) & Hlast).
      rewrite Hrec. split.
      * intros [= <-]. exists i, rec. split; [done|].
        split; [by apply matches_qualifies|]. split; [done|].
        intros j rj Hj Hlj. apply matches_false, (Hlast j); [|done].
        split; [done|]. by eapply lookup_lt_Some.
      * intros (i' & rec' & Hrec' & Hq & -> & Hlast').
        destruct (Nat.lt_trichotomy i i') as [Hlt|[->|Hgt]].
        -- exfalso. apply matches_qualifies in Hq.
           rewrite (Hlast i' rec') in Hq; [done| |done].
           split; [done|]. by eapply lookup_lt_Some.
        -- congruence.
        -- exfalso. apply (Hlast' i rec); [done|done|]. by apply matches_qualifies.
    + split; [done|]. intros (i & rec & Hrec & Hq & _).
      apply matches_qualifies in Hq.
      rewrite (proj1 HN eq_refl i rec) in Hq; [done| |done].
      by eapply lookup_lt_Some.
  - destruct (selected h asOf validTime (length h)) as [i|] eqn:Hsel.
    + destruct (proj1 (HS i (le_n _)) eq_refl) as (Hi & (rec & Hrec & Hm) & Hlast).
      rewrite Hrec. split; [done|]. intros Hno. exfalso.
      apply (Hno i rec); [done|]. by apply matches_qualifies.
    + split; [|done]. intros _ j rj Hlj. apply matches_false.
      apply (proj1 HN eq_refl j); [|done]. by eapply lookup_lt_Some.
  - intros Hkey. subst h. unfold history_of, records_of. rewrite Hkey. done.
Qed.

(** C1 (as the code has it). [QueryTemporal] returns the value of the
    record of greatest position, that is the most recently inserted one,
    among those recorded no later than [asOf] whose valid interval contains
    [validTime] strictly inside: [validFrom < validTime < validTo]. It
    reports not found, with a nil value, exactly when no record of the key
    qualifies, which includes every unknown key. *)
Theorem QueryTemporal_latest_qualifying db key asOf validTime :
  (∀ w, QueryTemporal db key asOf validTime = (w, true) ↔
        ∃ i rec, history_of db key !! i = Some rec
                 ∧ qualifies asOf validTime rec
                 ∧ w = Value rec
                 ∧ ∀ j rj, (i < j)%nat → history_of db key !! j = Some rj →
                           ¬ qualifies asOf validTime rj)
  ∧ (QueryTemporal db key asOf validTime = (Nil, false) ↔
     ∀ j rj, history_of db key !! j = Some rj → ¬ qualifies asOf validTime rj)
  ∧ (data db !! key = None → QueryTemporal db key asOf validTime = (Nil, false)).
Proof. apply QueryTemporal_outcomes. Qed.

(** The scenario of the design document: two prices with adjoining valid
    intervals, each found inside its own interval. *)
Lemma QueryTemporal_latest_qualifying_witness :
  let db1 := (Insert 10 nil_error empty_engine "p" (Num 100) 20240101 20240701).1 in
  let db2 := (Insert 11 nil_error db1 "p" (Num 200) 20240701 99991231).1 in
  QueryTemporal db2 "p" 50 20240301 = (Num 100, true)
  ∧ QueryTemporal db2 "p" 50 20240801 = (Num 200, true)
  ∧ QueryTemporal db2 "q" 50 20240801 = (Nil, false).
Proof.
  intros db1 db2. split; [|split].
  - apply (QueryTemporal_latest_qualifying db2 "p" 50 20240301).
    exists 0%nat, {| Key := "p"; Value := Num 100; ValidTimeStart := 20240101;
                     ValidTimeEnd := 20240701; TransactionTime := 10;
                     Metadata := ∅ |}.
    split; [reflexivity|]. split; [unfold qualifies; simpl; lia|].
    split; [reflexivity|].
    intros [|[|j]] rj Hj; [lia| |].
    + intros Hl. vm_compute in Hl. injection Hl as <-.
      unfold qualifies; simpl; lia.
    + intros [=].
  - apply (QueryTemporal_latest_qualifying db2 "p" 50 20240801).
    exists 1%nat, {| Key := "p"; Value := Num 200; ValidTimeStart := 20240701;
                     ValidTimeEnd := 99991231; TransactionTime := 11;
                     Metadata := ∅ |}.
    split; [reflexivity|]. split; [unfold qualifies; simpl; lia|].
    split; [reflexivity|].
    intros [|[|j]] rj Hj; [lia|lia|]. intros [=].
  - apply (QueryTemporal_latest_qualifying db2 "q" 50 20240801). reflexivity.
Defined.

(** C1 (as the design document has it) fails at the lower end of the
    valid interval: a record whose [validFrom] equals [validTime] satisfies
    [validFrom ≤ validTime < validTo], and the code does not return it. *)
Lemma QueryTemporal_excludes_validFrom :
  let db1 := (Insert 1 nil_error empty_engine "p" (Num 100) 10 20).1 in
  queryAsOf_doc db1 "p" 5 10 = (Num 100, true)
  ∧ QueryTemporal db1 "p" 5 10 = (Nil, false)
  ∧ QueryTemporal db1 "p" 5 10 ≠ queryAsOf_doc db1 "p" 5 10.
Proof. intros db1. split; [|split]; [reflexivity|reflexivity|discriminate]. Qed.



(** C7 (as the code has it). [Insert] does not examine the time range: for
    every range, with [validFrom ≥ validTo] or not, it appends the record
    with [recordedAt = now] to the history of the key, leaves every other
    key as it was, and returns what persisting returned. *)
Theorem Insert_appends_any_range now persist db key value validStart validEnd :
  (Insert now persist db key value validStart validEnd).2 = persist
  ∧ history_of (Insert now persist db key value validStart validEnd).1 key
    = history_of db key ++
      [{| Key := key; Value := value; ValidTimeStart := validStart;
          ValidTimeEnd := validEnd; TransactionTime := now; Metadata := ∅ |}]
  ∧ ∀ k, k ≠ key →
      data (Insert now persist db key value validStart validEnd).1 !! k
      = data db !! k.
Proof.
  split; [done|]. split; [apply history_of_Insert|].
  intros k Hk. unfold Insert; simpl. by rewrite lookup_insert_ne.
Qed.

Lemma Insert_appends_any_range_witness :
  data (Insert 1 nil_error empty_engine "p" (Num 7) 5 3).1 !! "q" = None.
Proof.
  destruct (Insert_appends_any_range 1 nil_error empty_engine "p" (Num 7) 5 3)
    as (_ & _ & Hother).
  rewrite (Hother "q"); [reflexivity | discriminate].
Defined.

(** C7 (as the design document has it) fails: an insert whose [validFrom]
    is greater than its [validTo] returns no error and changes the history
    of the key. *)
Lemma Insert_accepts_inverted_range :
  3 <= 5
  ∧ (Insert 1 nil_error empty_engine "p" (Num 7) 5 3).2 = nil_error
  ∧ history_of empty_engine "p" = []
  ∧ history_of (Insert 1 nil_error empty_engine "p" (Num 7) 5 3).1 "p"
    = [{| Key := "p"; Value := Num 7; ValidTimeStart := 5; ValidTimeEnd := 3;
          TransactionTime := 1; Metadata := ∅ |}].
Proof. split; [lia|]. split; [|split]; reflexivity. Qed.

(** C10. [GetHistory] returns the stored history of the key, in insertion
    order, as a slice that is never nil; for a key with no stored records
    (unknown, or known with nothing stored) that slice is empty. *)
Theorem GetHistory_stored_history db key :
  elems (GetHistory db key) = history_of db key
  ∧ is_nil (GetHistory db key) = false
  ∧ (history_of db key = [] → GetHistory db key = make_slice []).
Proof.
  unfold GetHistory, history_of, records_of.
  destruct (data db !! key) as [records|]; simpl; [|done].
  split; [done|]. split; [done|]. by intros ->.
Qed.

Lemma GetHistory_stored_history_witness :
  GetHistory empty_engine "p" = make_slice []
  ∧ GetHistory {| data := {[ "p" := nil_slice ]}; dataDir := "data" |} "p"
    = make_slice [].
Proof.
  split.
  - apply (GetHistory_stored_history empty_engine "p"). reflexivity.
  - apply (GetHistory_stored_history
             {| data := {[ "p" := nil_slice ]}; dataDir := "data" |} "p").
    reflexivity.
Defined.

End TemporalStore.

(** ** The Raft node *)

Section RaftNode.
Import Raft.

Lemma Apply_log r command :
  log (Apply r command).1 =
  log r ++ [{| Term := currentTerm r;
               Index := Z.of_nat (length (log r)) + 1;
               Command := command |}].
Proof. reflexivity. Qed.

Lemma log_inv_Apply r command : log_inv r → log_inv (Apply r command).1.
Proof.
  intros (Hc & Ha & Hidx). unfold log_inv. rewrite Apply_log. simpl.
  rewrite length_app. simpl.
  split; [lia|]. split; [lia|].
  intros i e Hi. apply lookup_app_Some in Hi as [Hi|[Hge Hi]].
  - by apply Hidx.
  - apply list_lookup_singleton_Some in Hi as [Hz <-]. simpl. lia.
Qed.

(** The other methods leave the log and the two indices alone. *)
Lemma log_inv_other_methods r id addr leaderAddr :
  log_inv r →
  log_inv (Join r id addr leaderAddr).1 ∧ log_inv (startElection r)
  ∧ log_inv (tick r) ∧ log_inv (Shutdown r).1.
Proof.
  intros Hr. split; [done|]. split; [done|]. split; [|done].
  unfold tick. by destruct (state r).
Qed.



(** C5 (as the code has it). [Apply] does not look at the state of the
    node: on a Follower, a Candidate or a Leader alike it appends one entry
    with the current term and the next index, leaves the state as it was,
    and returns a nil error. *)
Theorem Apply_succeeds_in_every_state r command :
  (Apply r command).2 = nil_error
  ∧ log (Apply r command).1 =
    log r ++ [{| Term := currentTerm r;
                 Index := Z.of_nat (length (log r)) + 1;
                 Command := command |}]
  ∧ state (Apply r command).1 = state r.
Proof. done. Qed.

(** C5 (as the design document has it) fails: a node just created is a
    Follower, and [Apply] on it returns a nil error and appends the entry. *)
Lemma Apply_on_follower_returns_nil :
  let r := (NewRaftNode "node1" 9000 "data" Temporal.empty_engine
              CRDT.NewCRDTStore).1 in
  state r = Follower
  ∧ (Apply r (Str "cmd")).2 = nil_error
  ∧ log (Apply r (Str "cmd")).1 =
    [{| Term := 0; Index := 1; Command := Str "cmd" |}].
Proof. intros r. split; [|split]; reflexivity. Qed.



(** C9. The node invariant: [commitIndex] and [lastApplied] both equal the
    length of the log, and the entry at position [i] (from 0) has index
    [i + 1]. [NewRaftNode] establishes it, every [Apply] preserves it, and
    [Apply] returns a nil error whatever the state of the node. *)
Theorem log_inv_NewRaftNode_Apply :
  (∀ id port dir engine store,
     log_inv (NewRaftNode id port dir engine store).1)
  ∧ (∀ r command, log_inv r → log_inv (Apply r command).1)
  ∧ (∀ r command, (Apply r command).2 = nil_error).
Proof.
  split; [|split].
  - intros. by split; [|split].
  - apply log_inv_Apply.
  - done.
Qed.

Lemma log_inv_NewRaftNode_Apply_witness :
  let r := (NewRaftNode "node1" 9000 "data" Temporal.empty_engine
              CRDT.NewCRDTStore).1 in
  log_inv r ∧ log_inv (Apply r (Str "cmd")).1.
Proof.
  intros r. destruct log_inv_NewRaftNode_Apply as (Hnew & Hstep & _).
  split; [apply Hnew|]. apply Hstep, Hnew.
Defined.

End RaftNode.

(** ** The grow-only counter *)

Section Counters.
Import CRDT.

Lemma wrap64_id z : in_int64 z → wrap64 z = z.
Proof.
  unfold in_int64, min_int64, max_int64, wrap64. intros Hz.
  rewrite Z.mod_small; lia.
Qed.

Lemma wrap64_add_l a b : wrap64 (wrap64 a + b) = wrap64 (a + b).
Proof.
  unfold wrap64. f_equal.
  replace ((a + 2 ^ 63) mod 2 ^ 64 - 2 ^ 63 + b + 2 ^ 63)
    with ((a + 2 ^ 63) mod 2 ^ 64 + b) by lia.
  rewrite Zplus_mod_idemp_l. f_equal. lia.
Qed.

Lemma count_of_insert gc n x n' :
  count_of {| NodeCounts := <[n := x]> (NodeCounts gc) |} n' =
  if decide (n = n') then x else count_of gc n'.
Proof.
  unfold count_of; simpl. rewrite lookup_insert.
  by destruct (decide (n = n')).
Qed.

(** *** The loop of [MergeCounter], entry by entry *)

Lemma merge_into_lookup local other n :
  NodeCounts (merge_into local other) !! n =
  match NodeCounts other !! n with
  | Some c => if c >? count_of local n then Some c else NodeCounts local !! n
  | None => NodeCounts local !! n
  end.
Proof.
  unfold merge_into. revert n.
  apply (map_fold_weak_ind
    (λ acc m, ∀ n, NodeCounts acc !! n =
       match m !! n with
       | Some c => if c >? count_of local n then Some c
                   else NodeCounts local !! n
       | None => NodeCounts local !! n
       end)).
  - intros n. by rewrite lookup_empty.
  - intros i x m acc Hi IH n. unfold merge_entry.
    assert (count_of acc i = count_of local i) as Hacc.
    { unfold count_of. by rewrite (IH i), Hi. }
    rewrite Hacc. destruct (decide (i = n)) as [->|Hne].
    + rewrite lookup_insert_eq. destruct (x >? count_of local n); simpl.
      * by rewrite lookup_insert_eq.
      * by rewrite (IH n), Hi.
    + rewrite lookup_insert_ne by done.
      destruct (x >? count_of local i); simpl;
        [rewrite lookup_insert_ne by done|]; apply IH.
Qed.

(** Go ranges over a map in an order that is not specified. The body of
    the loop gives the same counter whichever entry comes first, so every
    order of the entries of [other] gives the result of [merge_into]. *)
Lemma merge_entry_comm k1 x1 k2 x2 gc :
  k1 ≠ k2 →
  merge_entry k1 x1 (merge_entry k2 x2 gc) =
  merge_entry k2 x2 (merge_entry k1 x1 gc).
Proof.
  intros Hne. unfold merge_entry.
  destruct (x2 >? count_of gc k2) eqn:H2; destruct (x1 >? count_of gc k1) eqn:H1;
    rewrite ?count_of_insert, ?decide_False by done; rewrite ?H1, ?H2; simpl;
    try done.
  f_equal. by apply insert_insert_ne.
Qed.

Lemma merge_into_any_order local other entries :
  entries ≡ₚ map_to_list (NodeCounts other) →
  foldr (uncurry merge_entry) local entries = merge_into local other.
Proof.
  intros Hperm. unfold merge_into. rewrite map_fold_foldr. symmetry.
  apply (foldr_permutation eq (uncurry merge_entry) local); [|done].
  intros j1 [k1 x1] j2 [k2 x2] gc Hj H1 H2. simpl.
  apply merge_entry_comm. intros ->. apply Hj.
  eapply NoDup_lookup; [apply (NoDup_fst_map_to_list (NodeCounts other))| |].
  - by rewrite list_lookup_fmap, H1.
  - by rewrite list_lookup_fmap, H2.
Qed.

Lemma merge_into_count local other n :
  count_of (merge_into local other) n =
  match NodeCounts other !! n with
  | Some c => if c >? count_of local n then c else count_of local n
  | None => count_of local n
  end.
Proof.
  unfold count_of at 1. rewrite merge_into_lookup.
  destruct (NodeCounts other !! n) as [c|]; [|done].
  by destruct (c >? count_of local n).
Qed.

Lemma nonneg_count gc n : nonneg gc → 0 <= count_of gc n.
Proof.
  intros Hgc. unfold count_of.
  destruct (NodeCounts gc !! n) as [x|] eqn:Hn; simpl; [by eapply Hgc | lia].
Qed.

Lemma merge_into_max local other n :
  nonneg local →
  count_of (merge_into local other) n =
  Z.max (count_of local n) (count_of other n).
Proof.
  intros Hl. pose proof (nonneg_count local n Hl).
  rewrite merge_into_count.
  assert (count_of other n = default 0 (NodeCounts other !! n)) as -> by done.
  destruct (NodeCounts other !! n) as [c|]; simpl; [|lia].
  destruct (Z.gtb_spec c (count_of local n)); lia.
Qed.

Lemma merge_into_nonneg local other :
  nonneg local → nonneg (merge_into local other).
Proof.
  intros Hl n x. rewrite merge_into_lookup.
  pose proof (nonneg_count local n Hl).
  destruct (NodeCounts other !! n) as [c|]; [|apply Hl].
  destruct (Z.gtb_spec c (count_of local n)); [|apply Hl].
  intros [= <-]. lia.
Qed.

Lemma merge_into_idem gc : merge_into gc gc = gc.
Proof.
  destruct (merge_into gc gc) as [m] eqn:Hm. destruct gc as [g]. f_equal.
  apply map_eq. intros n.
  change m with (NodeCounts {| NodeCounts := m |}).
  rewrite <- Hm, merge_into_lookup. simpl.
  destruct (g !! n) as [c|] eqn:Hn; [|done].
  unfold count_of; simpl. rewrite Hn; simpl.
  destruct (Z.gtb_spec c c); [lia|done].
Qed.

(** *** Totals *)

Lemma sum_counts_insert m i x :
  m !! i = None → sum_counts (<[i := x]> m) = sum_counts m + x.
Proof.
  intros Hi. unfold sum_counts.
  rewrite map_fold_insert_L; [done | intros; lia | done].
Qed.

Lemma sum_counts_delete m i :
  sum_counts m = sum_counts (delete i m) + default 0 (m !! i).
Proof.
  destruct (m !! i) as [x|] eqn:Hi; simpl.
  - rewrite <- (insert_delete_id m i x) at 1 by done.
    apply sum_counts_insert, lookup_delete_eq.
  - rewrite delete_id by done. lia.
Qed.

Lemma sum_counts_zero m :
  (∀ n, default 0 (m !! n) = 0) → sum_counts m = 0.
Proof.
  induction m as [|i x m Hi IH] using map_ind; intros Hz; [done|].
  rewrite sum_counts_insert by done.
  pose proof (Hz i) as Hx. rewrite lookup_insert_eq in Hx. simpl in Hx.
  rewrite IH; [lia|]. intros n. destruct (decide (i = n)) as [->|Hne].
  - by rewrite Hi.
  - specialize (Hz n). by rewrite lookup_insert_ne in Hz.
Qed.

Lemma sum_counts_ext m1 m2 :
  (∀ n, default 0 (m1 !! n) = default 0 (m2 !! n)) →
  sum_counts m1 = sum_counts m2.
Proof.
  revert m2. induction m1 as [|i x m1 Hi IH] using map_ind; intros m2 Heq.
  - symmetry. apply sum_counts_zero. intros n. by rewrite <- Heq, lookup_empty.
  - rewrite sum_counts_insert by done. rewrite (sum_counts_delete m2 i).
    pose proof (Heq i) as Hx. rewrite lookup_insert_eq in Hx. simpl in Hx.
    rewrite <- Hx. f_equal. apply IH. intros n.
    destruct (decide (i = n)) as [->|Hne].
    + by rewrite Hi, lookup_delete_eq.
    + rewrite lookup_delete_ne by done. rewrite <- Heq.
      by rewrite lookup_insert_ne.
Qed.

Lemma total_of_sum gc : total_of gc = wrap64 (sum_counts (NodeCounts gc)).
Proof.
  unfold total_of. destruct gc as [m]; simpl.
  induction m as [|i x m Hi IH] using map_ind; [done|].
  rewrite sum_counts_insert by done.
  rewrite map_fold_insert_L; [|intros|done].
  - by rewrite IH, wrap64_add_l.
  - rewrite !wrap64_add_l. f_equal. lia.
Qed.

(** The total too is the same in every order of the entries. *)
Lemma total_of_any_order gc entries :
  entries ≡ₚ map_to_list (NodeCounts gc) →
  foldr (uncurry (λ (_ : string) (count total : Z), wrap64 (total + count)))
        0 entries
  = total_of gc.
Proof.
  intros Hperm. unfold total_of. rewrite map_fold_foldr. symmetry.
  apply (foldr_permutation eq
           (uncurry (λ (_ : string) (count total : Z), wrap64 (total + count)))
           0); [|done].
  intros j1 [k1 x1] j2 [k2 x2] total _ _ _. simpl.
  rewrite !wrap64_add_l. f_equal. lia.
Qed.

Lemma total_of_ext g1 g2 :
  (∀ n, count_of g1 n = count_of g2 n) → total_of g1 = total_of g2.
Proof.
  intros Heq. rewrite !total_of_sum. f_equal. by apply sum_counts_ext.
Qed.

(** *** The store operations on one key *)

Lemma counter_at_IncrementCounter c key nodeID delta k :
  counter_at (IncrementCounter c key nodeID delta) k =
  if decide (key = k) then
    {| NodeCounts :=
         <[nodeID := wrap64 (count_of (counter_at c key) nodeID + delta)]>
           (NodeCounts (counter_at c key)) |}
  else counter_at c k.
Proof.
  unfold counter_at at 1, IncrementCounter; simpl. rewrite lookup_insert.
  by destruct (decide (key = k)).
Qed.

Lemma counter_at_MergeCounter c key other k :
  counter_at (MergeCounter c key other) k =
  if decide (key = k) then merge_into (counter_at c key) other
  else counter_at c k.
Proof.
  unfold counter_at at 1, MergeCounter; simpl. rewrite lookup_insert.
  by destruct (decide (key = k)).
Qed.

Lemma GetCounter_total c key : GetCounter c key = total_of (counter_at c key).
Proof.
  unfold GetCounter, counter_at. by destruct (gcounter c !! key).
Qed.

(** *** Runs of the two replicas *)

Lemma nonneg_fresh : nonneg fresh_counter.
Proof. intros n x. unfold fresh_counter; simpl. by rewrite lookup_empty. Qed.

Lemma store_nonneg_Increment c key nodeID delta :
  store_nonneg c → 0 <= delta →
  count_of (counter_at c key) nodeID + delta <= max_int64 →
  store_nonneg (IncrementCounter c key nodeID delta).
Proof.
  intros Hc Hd Hmax k. rewrite counter_at_IncrementCounter.
  destruct (decide (key = k)) as [->|Hne]; [|apply Hc].
  pose proof (nonneg_count _ nodeID (Hc k)) as H0.
  intros n x; simpl. rewrite lookup_insert.
  destruct (decide (nodeID = n)) as [->|Hn]; [|apply (Hc k)].
  intros [= <-]. rewrite wrap64_id; [lia|].
  unfold in_int64, min_int64. unfold max_int64 in *. lia.
Qed.

Lemma store_nonneg_Merge c key other :
  store_nonneg c → store_nonneg (MergeCounter c key other).
Proof.
  intros Hc k. rewrite counter_at_MergeCounter.
  destruct (decide (key = k)) as [->|Hne]; [|apply Hc].
  apply merge_into_nonneg, Hc.
Qed.

Lemma cluster_nonneg_store cl r : cluster_nonneg cl → store_nonneg (store_of cl r).
Proof. intros (HA & HB & _). by destruct r. Qed.

Lemma cluster_nonneg_with_store cl r c :
  cluster_nonneg cl → store_nonneg c → cluster_nonneg (with_store cl r c).
Proof. intros (HA & HB & HN) Hc. destruct r; by split; [|split]. Qed.

Lemma cluster_nonneg_step cl ev :
  cluster_nonneg cl → grows cl ev → cluster_nonneg (step cl ev).
Proof.
  intros Hcl Hev. destruct ev as [r key nodeID delta|r key|r i]; simpl.
  - destruct Hev as [Hd Hmax].
    apply cluster_nonneg_with_store; [done|].
    apply store_nonneg_Increment; [by apply cluster_nonneg_store|done|done].
  - pose proof (cluster_nonneg_store cl r Hcl) as Hr.
    destruct Hcl as (HA & HB & HN). split; [done|]. split; [done|]. simpl.
    intros k gc [Hin|Hin%list_elem_of_singleton]%elem_of_app; [by eapply HN|].
    injection Hin as -> ->. apply Hr.
  - destruct (network cl !! i) as [[key other]|] eqn:Hi; [|done].
    apply cluster_nonneg_with_store; [done|].
    apply store_nonneg_Merge. by apply cluster_nonneg_store.
Qed.

Lemma cluster_nonneg_run cl evs :
  cluster_nonneg cl → all_grow cl evs → cluster_nonneg (run cl evs).
Proof.
  revert cl. induction evs as [|ev evs IH]; intros cl Hcl Hevs; [done|].
  destruct Hevs as [Hev Hevs]. simpl. apply IH; [|done].
  by apply cluster_nonneg_step.
Qed.

Lemma cluster_nonneg_start : cluster_nonneg start.
Proof.
  split; [|split].
  - intros k. apply nonneg_fresh.
  - intros k. apply nonneg_fresh.
  - intros k gc Hin. by apply elem_of_nil in Hin.
Qed.

Lemma cross_merge_agree key cl :
  cluster_nonneg cl →
  GetCounter (storeA (cross_merge key cl)) key =
  GetCounter (storeB (cross_merge key cl)) key.
Proof.
  intros (HA & HB & _). rewrite !GetCounter_total. unfold cross_merge; simpl.
  rewrite !counter_at_MergeCounter. rewrite !decide_True by done.
  apply total_of_ext. intros n.
  rewrite !merge_into_max by done. apply Z.max_comm.
Qed.

(** C3 (as the code has it). On counters whose components are not
    negative, [MergeCounter] computes the pointwise maximum of the local and
    the remote components (a missing component counting as zero), and the
    merge is commutative and associative on components and totals and
    idempotent. For every run of two replicas made of increments that are
    not negative and do not overflow, and of merges of counter states
    delivered in any order and any number of times, the two totals for a key
    are equal once each replica has merged the other's counter. *)
Theorem MergeCounter_pointwise_max_converges :
  (∀ c key other n,
     nonneg (counter_at c key) →
     count_of (counter_at (MergeCounter c key other) key) n =
     Z.max (count_of (counter_at c key) n) (count_of other n))
  ∧ (∀ a b, nonneg a → nonneg b →
       (∀ n, count_of (merge_into a b) n = count_of (merge_into b a) n)
       ∧ total_of (merge_into a b) = total_of (merge_into b a))
  ∧ (∀ a b c, nonneg a → nonneg b →
       (∀ n, count_of (merge_into (merge_into a b) c) n =
             count_of (merge_into a (merge_into b c)) n)
       ∧ total_of (merge_into (merge_into a b) c) =
         total_of (merge_into a (merge_into b c)))
  ∧ (∀ a, merge_into a a = a)
  ∧ (∀ evs key,
       all_grow start evs →
       GetCounter (storeA (cross_merge key (run start evs))) key =
       GetCounter (storeB (cross_merge key (run start evs))) key).
Proof.
  split; [|split; [|split; [|split]]].
  - intros c key other n Hc. rewrite counter_at_MergeCounter.
    rewrite decide_True by done. by apply merge_into_max.
  - intros a b Ha Hb.
    assert (∀ n, count_of (merge_into a b) n = count_of (merge_into b a) n)
      as Hn by (intros n; rewrite !merge_into_max by done; apply Z.max_comm).
    split; [done | by apply total_of_ext].
  - intros a b c Ha Hb.
    assert (∀ n, count_of (merge_into (merge_into a b) c) n =
                 count_of (merge_into a (merge_into b c)) n) as Hn.
    { intros n. rewrite !merge_into_max; [|done..|by apply merge_into_nonneg].
      symmetry. apply Z.max_assoc. }
    split; [done | by apply total_of_ext].
  - apply merge_into_idem.
  - intros evs key Hevs. apply cross_merge_agree.
    apply cluster_nonneg_run; [apply cluster_nonneg_start | done].
Qed.

(** The scenario of the design document: the local counter [{n1:3, n2:2}]
    receives the remote counter [{n1:1, n2:5}], twice; both replicas then
    merge each other and agree on the total 8. *)
Lemma MergeCounter_pointwise_max_converges_witness :
  let evs := [Increment A "v" "n1" 3; Increment A "v" "n2" 2;
              Increment B "v" "n1" 1; Increment B "v" "n2" 5;
              Send B "v"; Deliver A 0; Deliver A 0] in
  all_grow start evs
  ∧ GetCounter (storeA (run start evs)) "v" = 8
  ∧ GetCounter (storeA (cross_merge "v" (run start evs))) "v" =
    GetCounter (storeB (cross_merge "v" (run start evs))) "v".
Proof.
  intros evs.
  assert (all_grow start evs) as Hevs.
  { repeat split; vm_compute; discriminate. }
  split; [done|]. split; [reflexivity|].
  by apply MergeCounter_pointwise_max_converges.
Defined.

(** C3 (as the design document has it) fails when a component is negative,
    which a negative delta or an overflowing sum of deltas produces: the
    replica that holds the negative component keeps it when it merges, the
    other replica does not take it over, and the totals differ after both
    replicas have merged each other. The merge of those two counters is not
    the pointwise maximum either, and not commutative. *)
Lemma MergeCounter_negative_component_diverges :
  let run1 := run start [Increment A "v" "n1" (-5)] in
  let run2 := run start [Increment A "v" "n1" max_int64;
                         Increment A "v" "n1" 1] in
  let a := {| NodeCounts := {[ "n1" := -5 ]} |} in
  GetCounter (storeA (cross_merge "v" run1)) "v" = -5
  ∧ GetCounter (storeB (cross_merge "v" run1)) "v" = 0
  ∧ GetCounter (storeA (cross_merge "v" run2)) "v" = min_int64
  ∧ GetCounter (storeB (cross_merge "v" run2)) "v" = 0
  ∧ count_of (merge_into a fresh_counter) "n1" = -5
  ∧ Z.max (count_of a "n1") (count_of fresh_counter "n1") = 0
  ∧ count_of (merge_into fresh_counter a) "n1" = 0.
Proof. repeat split; vm_compute; reflexivity. Qed.




End Counters.

(** ** The last-writer-wins register *)

Section Registers.
Import CRDT.

(** *** The order on writer ids *)

Lemma ascii_compare_refl a : Ascii.compare a a = Eq.
Proof. unfold Ascii.compare. apply N.compare_refl. Qed.

Lemma ascii_compare_lt_trans a b c :
  Ascii.compare a b = Lt → Ascii.compare b c = Lt → Ascii.compare a c = Lt.
Proof.
  unfold Ascii.compare. rewrite !N.compare_lt_iff. apply N.lt_trans.
Qed.

Lemma string_compare_refl s : String.compare s s = Eq.
Proof. induction s as [|a s IH]; simpl; [done|]. by rewrite ascii_compare_refl. Qed.

Lemma string_compare_lt_trans s1 s2 s3 :
  String.compare s1 s2 = Lt → String.compare s2 s3 = Lt →
  String.compare s1 s3 = Lt.
Proof.
  revert s2 s3. induction s1 as [|x s1 IH]; intros [|y s2] [|z s3]; simpl;
    try done.
  destruct (Ascii.compare x y) eqn:Hxy; try done;
    destruct (Ascii.compare y z) eqn:Hyz; try done; intros H12 H23.
  - apply Ascii.compare_eq_iff in Hxy as ->.
    apply Ascii.compare_eq_iff in Hyz as ->.
    rewrite ascii_compare_refl. by eapply IH.
  - apply Ascii.compare_eq_iff in Hxy as ->. by rewrite Hyz.
  - apply Ascii.compare_eq_iff in Hyz as ->. by rewrite Hxy.
  - by rewrite (ascii_compare_lt_trans x y z).
Qed.

Lemma string_ltb_lt a b : String.ltb a b = true ↔ String.compare a b = Lt.
Proof. unfold String.ltb. destruct (String.compare a b); split; congruence. Qed.

Lemma string_ltb_irrefl a : String.ltb a a = false.
Proof. unfold String.ltb. by rewrite string_compare_refl. Qed.

Lemma string_ltb_trans a b c :
  String.ltb a b = true → String.ltb b c = true → String.ltb a c = true.
Proof. rewrite !string_ltb_lt. apply string_compare_lt_trans. Qed.

Lemma string_ltb_total a b :
  String.ltb a b = true ∨ a = b ∨ String.ltb b a = true.
Proof.
  rewrite !string_ltb_lt. rewrite (String.compare_antisym b a).
  destruct (String.compare a b) eqn:Hab; simpl; auto.
  right; left. by apply String.compare_eq_iff.
Qed.

(** *** The order on (timestamp, writer) pairs *)

Lemma supersedes_lt timestamp nodeID existing value :
  supersedes timestamp nodeID existing = true ↔
  stamp_lt existing
    {| Value := value; Timestamp := timestamp; NodeID := nodeID |}.
Proof.
  unfold supersedes, stamp_lt, After, Equal, string_gt; simpl.
  rewrite orb_true_iff, andb_true_iff, Z.ltb_lt, Z.eqb_eq.
  split; (intros [H|[H1 H2]]; [by left | by right]).
Qed.

Lemma supersedes_reg other existing :
  supersedes (Timestamp other) (NodeID other) existing = true ↔
  stamp_lt existing other.
Proof. destruct other as [v t n]. apply supersedes_lt. Qed.

Lemma stamp_lt_irrefl r : ¬ stamp_lt r r.
Proof.
  intros [H|[_ H]]; [lia|]. by rewrite string_ltb_irrefl in H.
Qed.

Lemma stamp_lt_trans r1 r2 r3 : stamp_lt r1 r2 → stamp_lt r2 r3 → stamp_lt r1 r3.
Proof.
  intros [H12|[E12 H12]] [H23|[E23 H23]].
  - left; lia.
  - left; lia.
  - left; lia.
  - right. split; [lia|]. by eapply string_ltb_trans.
Qed.

Lemma stamp_total r1 r2 : stamp_lt r1 r2 ∨ stamp_eq r1 r2 ∨ stamp_lt r2 r1.
Proof.
  unfold stamp_lt, stamp_eq.
  destruct (Z.lt_trichotomy (Timestamp r1) (Timestamp r2)) as [H|[H|H]];
    [by left; left| |by right; right; left].
  destruct (string_ltb_total (NodeID r1) (NodeID r2)) as [Hn|[Hn|Hn]].
  - left; right; done.
  - right; left; done.
  - right; right; right; done.
Qed.

Lemma stamp_lt_eq_l r1 r2 r3 : stamp_eq r1 r2 → stamp_lt r2 r3 → stamp_lt r1 r3.
Proof. unfold stamp_eq, stamp_lt. intros [-> ->]. done. Qed.

Lemma stamp_le_refl r : stamp_le r r.
Proof. by right. Qed.

Lemma stamp_le_lt_trans r1 r2 r3 : stamp_le r1 r2 → stamp_lt r2 r3 → stamp_le r1 r3.
Proof.
  intros [H12|H12] H23; left.
  - by eapply stamp_lt_trans.
  - by eapply stamp_lt_eq_l.
Qed.

Lemma not_stamp_lt_le r1 r2 : ¬ stamp_lt r1 r2 → stamp_le r2 r1.
Proof.
  intros Hn. destruct (stamp_total r1 r2) as [H|[[Ht Hi]|H]]; [done| |by left].
  right. by split.
Qed.

Lemma stamp_le_antisym r1 r2 : stamp_le r1 r2 → stamp_le r2 r1 → stamp_eq r1 r2.
Proof.
  intros [H12|H12] H21; [|done].
  destruct (stamp_lt_irrefl r1). destruct H21 as [H21|[Ht Hi]].
  - by eapply stamp_lt_trans.
  - unfold stamp_lt in *. by rewrite Ht, Hi in H12.
Qed.

(** *** One call *)

Lemma SetLWW_MergeLWW c key value timestamp nodeID :
  SetLWW c key value timestamp nodeID =
  MergeLWW c key {| Value := value; Timestamp := timestamp; NodeID := nodeID |}.
Proof. reflexivity. Qed.

Lemma do_call_MergeLWW c call :
  do_call c call = MergeLWW c (call_key call) (call_reg call).
Proof. by destruct call. Qed.

Lemma MergeLWW_lookup c key other k :
  lww (MergeLWW c key other) !! k =
  if decide (key = k) then
    match lww c !! key with
    | None => Some other
    | Some local =>
      if supersedes (Timestamp other) (NodeID other) local then Some other
      else Some local
    end
  else lww c !! k.
Proof.
  unfold MergeLWW. destruct (lww c !! key) as [local|] eqn:Hkey.
  - destruct (supersedes (Timestamp other) (NodeID other) local); simpl.
    + rewrite lookup_insert. by destruct (decide (key = k)).
    + destruct (decide (key = k)) as [<-|]; done.
  - simpl. rewrite lookup_insert. by destruct (decide (key = k)).
Qed.

Lemma do_calls_snoc c calls call :
  do_calls c (calls ++ [call]) = do_call (do_calls c calls) call.
Proof. unfold do_calls. by rewrite fold_left_app. Qed.

(** After any sequence of calls on a key that held no register, the register
    stored is the one offered by some call of the sequence on that key, and
    no call of the sequence on that key offers a greater pair. *)
Lemma do_calls_maximum c key calls :
  lww c !! key = None →
  match lww (do_calls c calls) !! key with
  | None => ∀ call, call ∈ calls → call_key call ≠ key
  | Some r =>
    (∃ call, call ∈ calls ∧ call_key call = key ∧ call_reg call = r)
    ∧ ∀ call, call ∈ calls → call_key call = key → stamp_le (call_reg call) r
  end.
Proof.
  intros Hnone. induction calls as [|call calls IH] using rev_ind.
  { simpl. rewrite Hnone. intros call Hin. by apply elem_of_nil in Hin. }
  rewrite do_calls_snoc, do_call_MergeLWW, MergeLWW_lookup.
  destruct (decide (call_key call = key)) as [Hk|Hk].
  - rewrite Hk. destruct (lww (do_calls c calls) !! key) as [local|].
    + destruct IH as [(call0 & Hin0 & Hk0 & Hr0) Hmax].
      destruct (supersedes (Timestamp (call_reg call)) (NodeID (call_reg call))
                  local) eqn:Hsup.
      * apply supersedes_reg in Hsup. split.
        -- exists call. rewrite elem_of_app, list_elem_of_singleton. auto.
        -- intros call' [Hin| ->%list_elem_of_singleton]%elem_of_app Hk'.
           ++ eapply stamp_le_lt_trans; [by apply Hmax|done].
           ++ apply stamp_le_refl.
      * split.
        -- exists call0. rewrite elem_of_app. auto.
        -- intros call' [Hin| ->%list_elem_of_singleton]%elem_of_app Hk'.
           ++ by apply Hmax.
           ++ apply not_stamp_lt_le. rewrite <- supersedes_reg. congruence.
    + split.
      * exists call. rewrite elem_of_app, list_elem_of_singleton. auto.
      * intros call' [Hin| ->%list_elem_of_singleton]%elem_of_app Hk'.
        -- by destruct (IH call' Hin).
        -- apply stamp_le_refl.
  - destruct (lww (do_calls c calls) !! key) as [local|].
    + destruct IH as [(call0 & Hin0 & Hk0 & Hr0) Hmax]. split.
      * exists call0. rewrite elem_of_app. auto.
      * intros call' [Hin| ->%list_elem_of_singleton]%elem_of_app Hk';
          [by apply Hmax | done].
    + intros call' [Hin| ->%list_elem_of_singleton]%elem_of_app;
        [by apply IH | done].
Qed.

Lemma GetLWW_do_calls c key calls :
  lww c !! key = None →
  (∃ call, call ∈ calls ∧ call_key call = key) →
  ∃ call, call ∈ calls ∧ call_key call = key
          ∧ (∀ call', call' ∈ calls → call_key call' = key →
                      stamp_le (call_reg call') (call_reg call))
          ∧ lww (do_calls c calls) !! key = Some (call_reg call).
Proof.
  intros Hnone (call0 & Hin0 & Hk0).
  pose proof (do_calls_maximum c key calls Hnone) as Hmax.
  destruct (lww (do_calls c calls) !! key) as [r|].
  - destruct Hmax as [(call & Hin & Hk & <-) Hmax]. by exists call.
  - by destruct (Hmax call0 Hin0).
Qed.

(** C4 (as the code has it). [SetLWW] and [MergeLWW] overwrite a stored
    register exactly when
    the incoming (timestamp, writer) pair is strictly greater than the stored
    one, the higher timestamp winning and the greater writer id breaking a
    tie; a key without register takes the incoming one. Hence, after any sequence of such calls on a key that had no
    register, the value stored is the value of a call that carries the
    greatest pair of the sequence; and when the calls that share a pair
    share their value, every order of the same calls ends in the same
    value. *)
Theorem LWW_keeps_greatest_pair :
  (∀ c key other local,
     lww c !! key = Some local →
     (stamp_lt local other → lww (MergeLWW c key other) !! key = Some other)
     ∧ (¬ stamp_lt local other → MergeLWW c key other = c))
  ∧ (∀ c key other,
       lww c !! key = None → lww (MergeLWW c key other) !! key = Some other)
  ∧ (∀ c key value timestamp nodeID local,
       let reg := {| Value := value; Timestamp := timestamp;
                     NodeID := nodeID |} in
       lww c !! key = Some local →
       (stamp_lt local reg →
        lww (SetLWW c key value timestamp nodeID) !! key = Some reg)
       ∧ (¬ stamp_lt local reg → SetLWW c key value timestamp nodeID = c))
  ∧ (∀ c key calls,
       lww c !! key = None →
       (∃ call, call ∈ calls ∧ call_key call = key) →
       ∃ call, call ∈ calls ∧ call_key call = key
               ∧ (∀ call', call' ∈ calls → call_key call' = key →
                           stamp_le (call_reg call') (call_reg call))
               ∧ GetLWW (do_calls c calls) key = (Value (call_reg call), true))
  ∧ (∀ c key calls calls',
       lww c !! key = None →
       calls ≡ₚ calls' →
       (∀ c1 c2, c1 ∈ calls → c2 ∈ calls →
                 call_key c1 = key → call_key c2 = key →
                 stamp_eq (call_reg c1) (call_reg c2) →
                 Value (call_reg c1) = Value (call_reg c2)) →
       GetLWW (do_calls c calls) key = GetLWW (do_calls c calls') key).
Proof.
  assert (∀ c key other local,
     lww c !! key = Some local →
     (stamp_lt local other → lww (MergeLWW c key other) !! key = Some other)
     ∧ (¬ stamp_lt local other → MergeLWW c key other = c)) as Hmerge.
  { intros c key other local Hlocal. rewrite MergeLWW_lookup.
    rewrite decide_True by done. unfold MergeLWW. rewrite Hlocal.
    pose proof (supersedes_reg other local) as Hsup.
    destruct (supersedes (Timestamp other) (NodeID other) local).
    - split; [done|]. intros Hn. destruct Hn. by apply Hsup.
    - split; [|done]. intros Hlt. apply Hsup in Hlt. done. }
  split; [exact Hmerge|]. split; [|split; [|split]].
  - intros c key other Hnone. rewrite MergeLWW_lookup, decide_True by done.
    by rewrite Hnone.
  - intros c key value timestamp nodeID local reg Hlocal.
    rewrite SetLWW_MergeLWW. by apply Hmerge.
  - intros c key calls Hnone Hsome.
    destruct (GetLWW_do_calls c key calls Hnone Hsome)
      as (call & Hin & Hk & Hmax & Hfinal).
    exists call. unfold GetLWW. by rewrite Hfinal.
  - intros c key calls calls' Hnone Hperm Hval.
    pose proof (do_calls_maximum c key calls Hnone) as H1.
    pose proof (do_calls_maximum c key calls' Hnone) as H2.
    unfold GetLWW.
    destruct (lww (do_calls c calls) !! key) as [r1|];
      destruct (lww (do_calls c calls') !! key) as [r2|].
    + destruct H1 as [(call1 & Hin1 & Hk1 & <-) Hmax1].
      destruct H2 as [(call2 & Hin2 & Hk2 & <-) Hmax2].
      rewrite <- Hperm in Hin2. f_equal.
      apply Hval; [done..|]. apply stamp_le_antisym.
      * apply Hmax2; [by rewrite <- Hperm | done].
      * by apply Hmax1.
    + destruct H1 as [(call1 & Hin1 & Hk1 & _) _].
      rewrite Hperm in Hin1. by destruct (H2 call1 Hin1).
    + destruct H2 as [(call2 & Hin2 & Hk2 & _) _].
      rewrite <- Hperm in Hin2. by destruct (H1 call2 Hin2).
    + done.
Qed.

(** The scenario of the design document: "red" written at time 10 by n1 and
    "blue" merged with time 5 from n2; the register holds "red" after the
    calls in that order and in the opposite order. *)
Lemma LWW_keeps_greatest_pair_witness :
  let set_red := CallSet "c" (Str "red") 10 "n1" in
  let merge_blue :=
    CallMerge "c" {| Value := Str "blue"; Timestamp := 5; NodeID := "n2" |} in
  GetLWW (do_calls NewCRDTStore [set_red; merge_blue]) "c" = (Str "red", true)
  ∧ GetLWW (do_calls NewCRDTStore [set_red; merge_blue]) "c"
    = GetLWW (do_calls NewCRDTStore [merge_blue; set_red]) "c".
Proof.
  intros set_red merge_blue. split; [reflexivity|].
  destruct LWW_keeps_greatest_pair as (_ & _ & _ & _ & Horder).
  apply Horder.
  - reflexivity.
  - apply Permutation_swap.
  - intros c1 c2 Hc1 Hc2 _ _ [Ht _].
    apply elem_of_cons in Hc1 as [->|Hc1];
      [|apply list_elem_of_singleton in Hc1 as ->];
      (apply elem_of_cons in Hc2 as [->|Hc2];
        [|apply list_elem_of_singleton in Hc2 as ->]);
      try reflexivity; simpl in Ht; lia.
Defined.

(** C4 (as the design document has it) fails when two calls carry the same
    (timestamp, writer) pair and different values: neither pair is strictly
    greater than the other, so the call applied first stands, and the same
    two calls end in "red" in one order and in "blue" in the other. *)
Lemma LWW_equal_pair_order_matters :
  let set_red := CallSet "c" (Str "red") 10 "n1" in
  let set_blue := CallSet "c" (Str "blue") 10 "n1" in
  [set_red; set_blue] ≡ₚ [set_blue; set_red]
  ∧ stamp_eq (call_reg set_red) (call_reg set_blue)
  ∧ GetLWW (do_calls NewCRDTStore [set_red; set_blue]) "c" = (Str "red", true)
  ∧ GetLWW (do_calls NewCRDTStore [set_blue; set_red]) "c" = (Str "blue", true)
  ∧ GetLWW (do_calls NewCRDTStore [set_red; set_blue]) "c"
    ≠ GetLWW (do_calls NewCRDTStore [set_blue; set_red]) "c".
Proof.
  intros set_red set_blue. split; [apply Permutation_swap|].
  split; [by split|]. split; [reflexivity|]. split; [reflexivity|].
  discriminate.
Qed.

End Registers.

(** * Further properties of the code *)

(** ** The temporal store: inserts and the queries after them *)

Section TemporalInserts.
Import Temporal.

Lemma scan_app records more asOf validTime n :
  (n <= length records)%nat →
  scan (records ++ more) asOf validTime n = scan records asOf validTime n.
Proof.
  induction n as [|i IH]; intros Hn; simpl; [done|].
  rewrite lookup_app_l by lia. rewrite IH by lia. done.
Qed.

Lemma scan_newest records rec asOf validTime :
  scan (records ++ [rec]) asOf validTime (length (records ++ [rec])) =
  if matches asOf validTime rec then (Value rec, true)
  else scan records asOf validTime (length records).
Proof.
  rewrite length_app. simpl. rewrite Nat.add_1_r. simpl.
  rewrite list_lookup_middle by done. rewrite scan_app by done.
  unfold matches. destruct (After (TransactionTime rec) asOf); simpl; [done|].
  by destruct (After validTime (ValidTimeStart rec)
               && Before validTime (ValidTimeEnd rec)).
Qed.

(** A query after an insert on the same key: the new record if it passes
    the test, the earlier answer if not. *)
Lemma QueryTemporal_Insert now persist db key value validStart validEnd
    asOf validTime :
  QueryTemporal (Insert now persist db key value validStart validEnd).1 key
                asOf validTime =
  if matches asOf validTime
       {| Key := key; Value := value; ValidTimeStart := validStart;
          ValidTimeEnd := validEnd; TransactionTime := now; Metadata := ∅ |}
  then (value, true)
  else QueryTemporal db key asOf validTime.
Proof.
  rewrite !QueryTemporal_scan, history_of_Insert. apply scan_newest.
Qed.

Lemma QueryTemporal_Insert_ne now persist db key value validStart validEnd
    k asOf validTime :
  k ≠ key →
  QueryTemporal (Insert now persist db key value validStart validEnd).1 k
                asOf validTime
  = QueryTemporal db k asOf validTime.
Proof.
  intros Hk. unfold QueryTemporal, Insert; simpl.
  by rewrite lookup_insert_ne.
Qed.

(** X1. A record that was inserted is found: a query as of any time from
    the recording on, for a valid time strictly inside the interval of the
    record, returns the inserted value, whatever persisting returned and
    whatever the key held before. *)
Theorem Insert_then_QueryTemporal now persist db key value validStart validEnd
    asOf validTime :
  now <= asOf →
  validStart < validTime →
  validTime < validEnd →
  QueryTemporal (Insert now persist db key value validStart validEnd).1 key
                asOf validTime = (value, true).
Proof.
  intros Hnow Hs He. rewrite QueryTemporal_Insert.
  rewrite (proj2 (matches_qualifies _ _ _)); [done|].
  unfold qualifies; simpl. lia.
Qed.

Lemma Insert_then_QueryTemporal_witness :
  QueryTemporal
    (Insert 7 (Errorf "disk full") empty_engine "p" (Num 100) 10 20).1 "p" 7 11
  = (Num 100, true).
Proof. apply Insert_then_QueryTemporal; lia. Defined.

(** X2. What was known stays known: an insert recorded after [asOf] changes
    the answer of no query as of [asOf], on any key and for any valid
    time. *)
Theorem Insert_keeps_earlier_views now persist db key value validStart validEnd
    k asOf validTime :
  asOf < now →
  QueryTemporal (Insert now persist db key value validStart validEnd).1 k
                asOf validTime
  = QueryTemporal db k asOf validTime.
Proof.
  intros Hlate. destruct (decide (k = key)) as [->|Hk].
  - rewrite QueryTemporal_Insert.
    rewrite (proj2 (matches_false _ _ _)); [done|].
    unfold qualifies; simpl. lia.
  - by apply QueryTemporal_Insert_ne.
Qed.

Lemma Insert_keeps_earlier_views_witness :
  let db1 := (Insert 3 nil_error empty_engine "p" (Num 100) 0 50).1 in
  QueryTemporal (Insert 7 nil_error db1 "p" (Num 200) 0 50).1 "p" 5 20
  = QueryTemporal db1 "p" 5 20.
Proof. intros db1. apply Insert_keeps_earlier_views. lia. Defined.

(** X3. A record whose valid interval is empty or inverted is stored and
    never returned: after the insert every query, on every key, answers as
    before. *)
Theorem Insert_inverted_range_invisible now persist db key value
    validStart validEnd k asOf validTime :
  validEnd <= validStart →
  QueryTemporal (Insert now persist db key value validStart validEnd).1 k
                asOf validTime
  = QueryTemporal db k asOf validTime.
Proof.
  intros Hinv. destruct (decide (k = key)) as [->|Hk].
  - rewrite QueryTemporal_Insert.
    rewrite (proj2 (matches_false _ _ _)); [done|].
    unfold qualifies; simpl. lia.
  - by apply QueryTemporal_Insert_ne.
Qed.

Lemma Insert_inverted_range_invisible_witness :
  QueryTemporal (Insert 1 nil_error empty_engine "p" (Num 7) 5 3).1 "p" 9 4
  = QueryTemporal empty_engine "p" 9 4.
Proof. apply Insert_inverted_range_invisible. lia. Defined.

(** X4. An insert on one key leaves the other keys alone: their queries and
    their histories are the same before and after. *)
Theorem Insert_other_keys now persist db key value validStart validEnd k :
  k ≠ key →
  (∀ asOf validTime,
     QueryTemporal (Insert now persist db key value validStart validEnd).1 k
                   asOf validTime
     = QueryTemporal db k asOf validTime)
  ∧ GetHistory (Insert now persist db key value validStart validEnd).1 k
    = GetHistory db k.
Proof.
  intros Hk. split.
  - intros asOf validTime. by apply QueryTemporal_Insert_ne.
  - unfold GetHistory, Insert; simpl. by rewrite lookup_insert_ne.
Qed.

Lemma Insert_other_keys_witness :
  GetHistory (Insert 1 nil_error empty_engine "p" (Num 7) 0 9).1 "q"
  = GetHistory empty_engine "q".
Proof.
  apply (Insert_other_keys 1 nil_error empty_engine "p" (Num 7) 0 9 "q").
  discriminate.
Defined.

Lemma GetHistory_stored_history_aux db key :
  elems (GetHistory db key) = history_of db key.
Proof.
  unfold GetHistory, history_of, records_of. by destruct (data db !! key).
Qed.

Lemma history_of_insert_call db c key :
  history_of (insert_call db c) key =
  if decide (ic_key c = key) then history_of db key ++ [record_of_call c]
  else history_of db key.
Proof.
  unfold insert_call. destruct (decide (ic_key c = key)) as [<-|Hk].
  - apply history_of_Insert.
  - unfold history_of, records_of, Insert; simpl.
    by rewrite lookup_insert_ne.
Qed.

(** X5. The history is append-only and complete: after any sequence of
    inserts the history of a key is its earlier history followed by the
    records of exactly the inserts on that key, in the order of the calls,
    those whose persisting failed included. *)
Theorem insert_all_history db calls key :
  history_of (insert_all db calls) key =
  history_of db key ++
  map record_of_call (filter (λ c, ic_key c = key) calls).
Proof.
  revert db. induction calls as [|c calls IH]; intros db; simpl.
  { by rewrite app_nil_r. }
  unfold insert_all in *. simpl. rewrite IH, history_of_insert_call.
  rewrite filter_cons. destruct (decide (ic_key c = key)); simpl; [|done].
  by rewrite <- app_assoc.
Qed.

(** X6. [NewDBEngine] gives an engine exactly when it gives a nil error.
    A missing data file is no error: the engine then holds nothing, every
    query reports not found and every history is empty. A data file gives
    an engine that holds its content. *)
Theorem NewDBEngine_outcomes mkdir d dir :
  ((NewDBEngine mkdir d dir).2 = nil_error ↔
   is_Some (NewDBEngine mkdir d dir).1)
  ∧ (mkdir = nil_error → d = NoFile →
     ∃ db, NewDBEngine mkdir d dir = (Some db, nil_error)
           ∧ (∀ key asOf validTime,
                QueryTemporal db key asOf validTime = (Nil, false))
           ∧ ∀ key, GetHistory db key = make_slice [])
  ∧ (∀ content, mkdir = nil_error → d = FileWith content →
     ∃ db, NewDBEngine mkdir d dir = (Some db, nil_error)
           ∧ data db = content).
Proof.
  split; [|split].
  - destruct mkdir as [|m]; simpl.
    + destruct d; simpl; split; intros H; try done; by destruct H.
    + split; intros H; [done | by destruct H].
  - intros -> ->. eexists. split; [done|]. split; [|done].
    intros key asOf validTime. unfold QueryTemporal; simpl. done.
  - intros content -> ->. by eexists.
Qed.

Lemma NewDBEngine_outcomes_witness :
  ∃ db, NewDBEngine nil_error NoFile "data" = (Some db, nil_error)
        ∧ GetHistory db "p" = make_slice [].
Proof.
  destruct (NewDBEngine_outcomes nil_error NoFile "data") as (_ & Hfresh & _).
  destruct (Hfresh eq_refl eq_refl) as (db & Hdb & _ & Hhist).
  exists db. split; [done | apply Hhist].
Defined.

End TemporalInserts.

(** ** The counters: totals, duplicates and independence *)

Section CounterTotals.
Import CRDT.

Lemma sum_counts_insert_any m i x :
  sum_counts (<[i := x]> m) = sum_counts (delete i m) + x.
Proof.
  rewrite <- insert_delete_eq. apply sum_counts_insert, lookup_delete_eq.
Qed.

Lemma wrap64_add_r a b : wrap64 (a + wrap64 b) = wrap64 (a + b).
Proof. rewrite Z.add_comm, wrap64_add_l. f_equal. lia. Qed.

Lemma GetCounter_Increment_total c key nodeID delta :
  GetCounter (IncrementCounter c key nodeID delta) key =
  wrap64 (GetCounter c key + delta).
Proof.
  rewrite !GetCounter_total, counter_at_IncrementCounter.
  rewrite decide_True by done. rewrite !total_of_sum. simpl.
  rewrite sum_counts_insert_any.
  rewrite (sum_counts_delete (NodeCounts (counter_at c key)) nodeID).
  fold (count_of (counter_at c key) nodeID).
  rewrite wrap64_add_r, wrap64_add_l. f_equal. lia.
Qed.

(** X7. An increment moves the total by the delta: the total of the key
    after [IncrementCounter] is the total before plus the delta, reduced to
    [int64]; this holds for a key that had no counter, whose total was 0. *)
Theorem GetCounter_IncrementCounter c key nodeID delta :
  GetCounter (IncrementCounter c key nodeID delta) key =
  wrap64 (GetCounter c key + delta).
Proof. apply GetCounter_Increment_total. Qed.

(** X8. Counters and registers do not interfere. An increment or a merge of
    a counter changes the total of no other key and no register; a write or
    a merge of a register changes no counter total and the register of no
    other key. *)
Theorem CRDTStore_operations_independent c key :
  (∀ nodeID delta k,
     (k ≠ key →
      GetCounter (IncrementCounter c key nodeID delta) k = GetCounter c k)
     ∧ GetLWW (IncrementCounter c key nodeID delta) k = GetLWW c k)
  ∧ (∀ other k,
       (k ≠ key → GetCounter (MergeCounter c key other) k = GetCounter c k)
       ∧ GetLWW (MergeCounter c key other) k = GetLWW c k)
  ∧ (∀ value timestamp nodeID k,
       GetCounter (SetLWW c key value timestamp nodeID) k = GetCounter c k
       ∧ (k ≠ key →
          GetLWW (SetLWW c key value timestamp nodeID) k = GetLWW c k))
  ∧ (∀ other k,
       GetCounter (MergeLWW c key other) k = GetCounter c k
       ∧ (k ≠ key → GetLWW (MergeLWW c key other) k = GetLWW c k)).
Proof.
  assert (∀ other k,
       GetCounter (MergeLWW c key other) k = GetCounter c k
       ∧ (k ≠ key → GetLWW (MergeLWW c key other) k = GetLWW c k)) as Hreg.
  { intros other k. split.
    - unfold MergeLWW. by destruct (match lww c !! key with
                                    | Some local => _ | None => _ end).
    - intros Hk. unfold GetLWW. rewrite MergeLWW_lookup.
      by rewrite decide_False. }
  split; [|split; [|split]].
  - intros nodeID delta k. split; [|done].
    intros Hk. unfold GetCounter, IncrementCounter; simpl.
    by rewrite lookup_insert_ne.
  - intros other k. split; [|done].
    intros Hk. unfold GetCounter, MergeCounter; simpl.
    by rewrite lookup_insert_ne.
  - intros value timestamp nodeID k. rewrite SetLWW_MergeLWW. apply Hreg.
  - exact Hreg.
Qed.

Lemma CRDTStore_operations_independent_witness :
  GetCounter (IncrementCounter NewCRDTStore "v" "n1" 3) "w" = 0.
Proof.
  destruct (CRDTStore_operations_independent NewCRDTStore "v") as (Hinc & _).
  destruct (Hinc "n1" 3 "w") as [Hother _].
  rewrite Hother; [reflexivity | discriminate].
Defined.

Lemma CRDT_GetCounter_wrapped c key : wrap64 (GetCounter c key) = GetCounter c key.
Proof.
  rewrite GetCounter_total, total_of_sum.
  generalize (sum_counts (NodeCounts (counter_at c key))). intros z.
  unfold wrap64. f_equal.
  replace ((z + 2 ^ 63) mod 2 ^ 64 - 2 ^ 63 + 2 ^ 63)
    with ((z + 2 ^ 63) mod 2 ^ 64) by lia.
  apply Z.mod_mod. lia.
Qed.

Lemma merge_into_twice local other :
  merge_into (merge_into local other) other = merge_into local other.
Proof.
  destruct (merge_into (merge_into local other) other) as [m2] eqn:H2.
  destruct (merge_into local other) as [m1] eqn:H1. f_equal.
  apply map_eq. intros n.
  change m2 with (NodeCounts {| NodeCounts := m2 |}).
  rewrite <- H2, merge_into_lookup.
  destruct (NodeCounts other !! n) as [x|] eqn:Hn; [|done].
  assert (count_of {| NodeCounts := m1 |} n
          = if x >? count_of local n then x else count_of local n) as ->.
  { rewrite <- H1, merge_into_count. by rewrite Hn. }
  destruct (Z.gtb_spec x (count_of local n)) as [Hgt|Hle].
  - destruct (Z.gtb_spec x x); [lia|done].
  - destruct (Z.gtb_spec x (count_of local n)); [lia|done].
Qed.

Lemma merge_into_fresh local : merge_into local fresh_counter = local.
Proof. unfold merge_into, fresh_counter; simpl. apply map_fold_empty. Qed.

(** X9. Duplicates and empty messages are harmless: merging the same
    remote counter a second time changes nothing in the store, and merging
    an empty remote counter leaves every component and the total of the key
    as they were. *)
Theorem MergeCounter_redelivery c key other :
  MergeCounter (MergeCounter c key other) key other = MergeCounter c key other
  ∧ counter_at (MergeCounter c key fresh_counter) key = counter_at c key
  ∧ GetCounter (MergeCounter c key fresh_counter) key = GetCounter c key.
Proof.
  split; [|split].
  - unfold MergeCounter at 1. rewrite counter_at_MergeCounter.
    rewrite decide_True by done. rewrite merge_into_twice.
    unfold MergeCounter; simpl. by rewrite insert_insert_eq.
  - rewrite counter_at_MergeCounter, decide_True by done.
    apply merge_into_fresh.
  - rewrite !GetCounter_total, counter_at_MergeCounter, decide_True by done.
    by rewrite merge_into_fresh.
Qed.

Lemma sum_counts_mono m1 m2 :
  (∀ n, default 0 (m1 !! n) <= default 0 (m2 !! n)) →
  sum_counts m1 <= sum_counts m2.
Proof.
  revert m2. induction m1 as [|i x m1 Hi IH] using map_ind; intros m2 Hle.
  - induction m2 as [|j y m2 Hj IH2] using map_ind; [done|].
    rewrite sum_counts_insert by done.
    pose proof (Hle j) as Hy. rewrite lookup_empty, lookup_insert_eq in Hy.
    simpl in Hy. unfold sum_counts at 1. rewrite map_fold_empty.
    assert (0 <= sum_counts m2); [|lia].
    unfold sum_counts at 1 in IH2. rewrite map_fold_empty in IH2.
    apply IH2. intros n. rewrite lookup_empty. simpl.
    destruct (decide (j = n)) as [->|Hne]; [by rewrite Hj|].
    specialize (Hle n). by rewrite lookup_empty, lookup_insert_ne in Hle.
  - rewrite sum_counts_insert by done. rewrite (sum_counts_delete m2 i).
    pose proof (Hle i) as Hx. rewrite lookup_insert_eq in Hx. simpl in Hx.
    assert (sum_counts m1 <= sum_counts (delete i m2)); [|lia].
    apply IH. intros n. destruct (decide (i = n)) as [->|Hne].
    + by rewrite Hi, lookup_delete_eq.
    + rewrite lookup_delete_ne by done. specialize (Hle n).
      by rewrite lookup_insert_ne in Hle.
Qed.

(** X10. A merge never lowers a component, and so never lowers the sum of
    the components; when the sums before and after fit [int64] the total
    reported by [GetCounter] does not go down. *)
Theorem MergeCounter_total_grows c key other :
  in_int64 (sum_counts (NodeCounts (counter_at c key))) →
  in_int64 (sum_counts
              (NodeCounts (counter_at (MergeCounter c key other) key))) →
  GetCounter c key <= GetCounter (MergeCounter c key other) key.
Proof.
  intros Hb Ha. rewrite !GetCounter_total, !total_of_sum.
  rewrite !wrap64_id by done. apply sum_counts_mono. intros n.
  rewrite counter_at_MergeCounter, decide_True by done.
  fold (count_of (counter_at c key) n).
  fold (count_of (merge_into (counter_at c key) other) n).
  rewrite merge_into_count.
  destruct (NodeCounts other !! n) as [x|]; [|lia].
  destruct (Z.gtb_spec x (count_of (counter_at c key) n)); lia.
Qed.

Lemma MergeCounter_total_grows_witness :
  let c := IncrementCounter (IncrementCounter NewCRDTStore "v" "n1" 3)
                            "v" "n2" 2 in
  let other := {| NodeCounts := {[ "n1" := 1; "n2" := 5 ]} |} in
  GetCounter c "v" <= GetCounter (MergeCounter c "v" other) "v".
Proof.
  intros c other. apply MergeCounter_total_grows.
  - vm_compute. split; discriminate.
  - vm_compute. split; discriminate.
Defined.

End CounterTotals.

(** ** The registers: no regress, no second write under one pair *)

Section RegisterOrder.
Import CRDT.

Lemma stamp_le_trans r1 r2 r3 : stamp_le r1 r2 → stamp_le r2 r3 → stamp_le r1 r3.
Proof.
  intros H12 [H23|[Ht Hi]]; [by eapply stamp_le_lt_trans|].
  destruct H12 as [H12|[Ht' Hi']].
  - left. unfold stamp_lt in *. by rewrite <- Ht, <- Hi.
  - right. split; congruence.
Qed.

Lemma MergeLWW_stored c key other old :
  lww c !! key = Some old →
  ∃ new, lww (MergeLWW c key other) !! key = Some new
         ∧ stamp_le old new ∧ stamp_le other new ∧ (new = old ∨ new = other).
Proof.
  intros Hold. rewrite MergeLWW_lookup, decide_True by done. rewrite Hold.
  destruct (supersedes (Timestamp other) (NodeID other) old) eqn:Hsup.
  - apply supersedes_reg in Hsup. exists other.
    split; [done|]. split; [by left|]. split; [apply stamp_le_refl | by right].
  - exists old. split; [done|]. split; [apply stamp_le_refl|].
    split; [|by left]. apply not_stamp_lt_le. rewrite <- supersedes_reg.
    congruence.
Qed.

(** X11. A register never regresses and is never removed: whatever calls of
    [SetLWW] and [MergeLWW] follow, on any keys and in any order, a key that
    holds a register still holds one, and its (timestamp, writer) pair is
    the old one or a greater one. *)
Theorem LWW_never_regresses c key old calls :
  lww c !! key = Some old →
  ∃ new, lww (do_calls c calls) !! key = Some new ∧ stamp_le old new.
Proof.
  intros Hold. induction calls as [|call calls IH] using rev_ind.
  { exists old. split; [done | apply stamp_le_refl]. }
  destruct IH as (mid & Hmid & Hle).
  rewrite do_calls_snoc, do_call_MergeLWW.
  destruct (decide (call_key call = key)) as [Hk|Hk].
  - rewrite Hk.
    destruct (MergeLWW_stored (do_calls c calls) key (call_reg call) mid Hmid)
      as (new & Hnew & Hle' & _).
    exists new. split; [done|]. by eapply stamp_le_trans.
  - exists mid. rewrite MergeLWW_lookup, decide_False by done. done.
Qed.

Lemma LWW_never_regresses_witness :
  let c := SetLWW NewCRDTStore "c" (Str "red") 10 "n1" in
  ∃ new,
    lww (do_calls c [CallSet "c" (Str "blue") 5 "n2";
                     CallSet "d" (Str "x") 99 "n3"]) !! "c" = Some new
    ∧ stamp_le {| Value := Str "red"; Timestamp := 10; NodeID := "n1" |} new.
Proof. intros c. by apply LWW_never_regresses. Defined.

(** X12. Under one (timestamp, writer) pair the first write stands: a
    second [MergeLWW] or [SetLWW] on the key that carries the same pair as
    the call before it changes nothing, also when it carries another value;
    in particular a register delivered twice is merged once. *)
Theorem LWW_same_pair_ignored c key first second :
  stamp_eq first second →
  MergeLWW (MergeLWW c key first) key second = MergeLWW c key first.
Proof.
  intros [Ht Hi].
  assert (∃ stored, lww (MergeLWW c key first) !! key = Some stored
                    ∧ stamp_le first stored) as (stored & Hst & Hle).
  { rewrite MergeLWW_lookup, decide_True by done.
    destruct (lww c !! key) as [old|] eqn:Hold.
    - destruct (supersedes (Timestamp first) (NodeID first) old) eqn:Hsup.
      + exists first. split; [done | apply stamp_le_refl].
      + exists old. split; [done|]. apply not_stamp_lt_le.
        rewrite <- supersedes_reg. congruence.
    - exists first. split; [done | apply stamp_le_refl]. }
  unfold MergeLWW at 1. rewrite Hst.
  destruct (supersedes (Timestamp second) (NodeID second) stored) eqn:Hsup;
    [|done].
  exfalso. rewrite <- Ht, <- Hi in Hsup. apply supersedes_reg in Hsup.
  destruct (stamp_lt_irrefl first).
  destruct Hle as [Hlt|[Ht' Hi']].
  - by eapply stamp_lt_trans.
  - unfold stamp_lt in *. by rewrite <- Ht', <- Hi' in Hsup.
Qed.

Lemma LWW_same_pair_ignored_witness :
  SetLWW (SetLWW NewCRDTStore "c" (Str "red") 10 "n1") "c" (Str "blue") 10 "n1"
  = SetLWW NewCRDTStore "c" (Str "red") 10 "n1".
Proof.
  rewrite !SetLWW_MergeLWW. apply LWW_same_pair_ignored. by split.
Defined.

End RegisterOrder.

(** ** The Raft node: elections, peers and the log over time *)

Section RaftRuns.
Import Raft.

Lemma raft_run_snoc r ops op :
  raft_run r (ops ++ [op]) = raft_step (raft_run r ops) op.
Proof. unfold raft_run. by rewrite fold_left_app. Qed.

Lemma applies_snoc ops op :
  applies (ops ++ [op]) =
  (applies ops + match op with OpApply _ => 1 | _ => 0 end)%nat.
Proof.
  induction ops as [|o ops IH]; simpl; [by destruct op|].
  destruct o; rewrite IH; lia.
Qed.

(** X13. A node never stands for election. No method sets the state to
    Candidate, so after [NewRaftNode] and any sequence of ticks, joins and
    applies the node is a Follower in term 0 that has voted for nobody, and
    [GetState] reports ("follower", 0). *)
Theorem new_node_stays_follower id port dir engine store ops :
  let r := raft_run (NewRaftNode id port dir engine store).1 ops in
  state r = Follower ∧ currentTerm r = 0 ∧ votedFor r = ""
  ∧ GetState r = ("follower", 0).
Proof.
  intros r. subst r.
  assert (state (raft_run (NewRaftNode id port dir engine store).1 ops)
          = Follower
          ∧ currentTerm (raft_run (NewRaftNode id port dir engine store).1 ops)
            = 0
          ∧ votedFor (raft_run (NewRaftNode id port dir engine store).1 ops)
            = "") as (Hs & Ht & Hv).
  { induction ops as [|op ops IH] using rev_ind; [done|].
    rewrite raft_run_snoc. destruct IH as (Hs & Ht & Hv).
    destruct op as [|a b l|command]; [|by simpl..].
    cbn [raft_step]. unfold tick. by rewrite Hs. }
  unfold GetState. by rewrite Hs, Ht.
Qed.

(** X14. No operation of the node rewrites the log or reaches the stores:
    over any sequence of ticks, joins and applies the earlier log is a
    prefix of the later one, the log grows by one entry for each [Apply]
    and by nothing else, each new entry carries the term the node had when
    it was appended, the engine and the store are untouched, and the node
    invariant is kept. *)
Theorem raft_run_log_append_only r ops :
  (∃ suffix, log (raft_run r ops) = log r ++ suffix
             ∧ length suffix = applies ops)
  ∧ db (raft_run r ops) = db r
  ∧ crdtStore (raft_run r ops) = crdtStore r
  ∧ (log_inv r → log_inv (raft_run r ops)).
Proof.
  induction ops as [|op ops IH] using rev_ind.
  { split; [|done]. exists []. by rewrite app_nil_r. }
  destruct IH as ((suffix & Hlog & Hlen) & Hdb & Hcrdt & Hinv).
  rewrite raft_run_snoc, applies_snoc.
  destruct op as [|a b l|command]; simpl.
  - assert (tick (raft_run r ops) = raft_run r ops
            ∨ tick (raft_run r ops) = startElection (raft_run r ops)) as [->| ->].
    { unfold tick, sendHeartbeats. destruct (state (raft_run r ops)); auto. }
    + split; [|done]. exists suffix. split; [done|lia].
    + split; [|done]. exists suffix. split; [done|lia].
  - split; [|done]. exists suffix. split; [done|lia].
  - split; [|split; [done|split; [done|]]].
    + exists (suffix ++ [{| Term := currentTerm (raft_run r ops);
                            Index := Z.of_nat (length (log (raft_run r ops))) + 1;
                            Command := command |}]).
      rewrite Hlog at 1. rewrite app_assoc, length_app. simpl. split; [done|lia].
    + intros Hr. apply log_inv_Apply. by apply Hinv.
Qed.

Lemma raft_run_log_append_only_witness :
  let r := (NewRaftNode "node1" 9000 "data" Temporal.empty_engine
              CRDT.NewCRDTStore).1 in
  log_inv (raft_run r [OpApply (Str "a"); OpTick; OpJoin "n2" "h:1" "";
                       OpApply (Str "b")]).
Proof.
  intros r.
  destruct (raft_run_log_append_only r
              [OpApply (Str "a"); OpTick; OpJoin "n2" "h:1" "";
               OpApply (Str "b")]) as (_ & _ & _ & Hinv).
  apply Hinv. by split; [|split].
Defined.

Lemma wrap64_succ_iter t n :
  in_int64 t →
  Nat.iter n (λ x, wrap64 (x + 1)) t = wrap64 (t + Z.of_nat n).
Proof.
  intros Ht. induction n as [|n IH].
  - simpl. rewrite Z.add_0_r. by rewrite wrap64_id.
  - rewrite Nat.iter_succ, IH, wrap64_add_l. f_equal. lia.
Qed.

(** X15. An election is decided by the peer map alone. A Candidate without
    peers becomes Leader at the first tick, in the next term and with its
    own vote, and later ticks change nothing. A Candidate with at least one
    peer never becomes Leader: tick after tick it stays Candidate, votes for
    itself and moves to the next term. *)
Theorem candidate_ticks r n :
  state r = Candidate →
  in_int64 (currentTerm r) →
  (peers r = ∅ →
   raft_run r (replicate (S n) OpTick) = startElection r
   ∧ state (startElection r) = Leader
   ∧ currentTerm (startElection r) = wrap64 (currentTerm r + 1)
   ∧ votedFor (startElection r) = nodeID r)
  ∧ (peers r ≠ ∅ →
     state (raft_run r (replicate (S n) OpTick)) = Candidate
     ∧ currentTerm (raft_run r (replicate (S n) OpTick))
       = wrap64 (currentTerm r + Z.of_nat (S n))
     ∧ votedFor (raft_run r (replicate (S n) OpTick)) = nodeID r
     ∧ peers (raft_run r (replicate (S n) OpTick)) = peers r).
Proof.
  intros Hc Hterm. split.
  - intros Hp.
    assert (state (startElection r) = Leader) as Hleader.
    { unfold startElection; simpl. rewrite Hp, map_size_empty.
      by rewrite decide_True. }
    split; [|done].
    induction n as [|n IH].
    + simpl. unfold tick. by rewrite Hc.
    + assert (replicate (S (S n)) OpTick
              = replicate (S n) OpTick ++ [OpTick]) as ->.
      { replace (S (S n)) with (S n + 1)%nat by lia. by rewrite replicate_add. }
      rewrite raft_run_snoc, IH. cbn [raft_step].
      unfold tick. by rewrite Hleader.
  - intros Hp.
    assert (size (peers r) ≠ 0%nat) as Hsize.
    { intros Hz. by apply map_size_empty_iff in Hz. }
    assert (∀ m,
      state (raft_run r (replicate m OpTick)) = Candidate
      ∧ currentTerm (raft_run r (replicate m OpTick))
        = Nat.iter m (λ x, wrap64 (x + 1)) (currentTerm r)
      ∧ (m ≠ 0%nat → votedFor (raft_run r (replicate m OpTick)) = nodeID r)
      ∧ nodeID (raft_run r (replicate m OpTick)) = nodeID r
      ∧ peers (raft_run r (replicate m OpTick)) = peers r) as Hall.
    { induction m as [|m IH]; [done|].
      destruct IH as (Hs & Ht & _ & Hid & Hpeers).
      assert (replicate (S m) OpTick = replicate m OpTick ++ [OpTick]) as ->.
      { replace (S m) with (m + 1)%nat by lia. by rewrite replicate_add. }
      rewrite raft_run_snoc. cbn [raft_step Nat.iter nat_rect].
      unfold tick. rewrite Hs.
      unfold startElection; simpl. rewrite Hpeers, Ht, Hid.
      by rewrite decide_False. }
    destruct (Hall (S n)) as (Hs & Ht & Hv & _ & Hpeers).
    split; [done|]. split; [|split; [by apply Hv | done]].
    rewrite Ht. by apply wrap64_succ_iter.
Qed.

Lemma candidate_ticks_witness :
  let r := {| nodeID := "node1"; raftPort := 9000; peers := ∅;
              state := Candidate; currentTerm := 0; votedFor := "";
              log := []; commitIndex := 0; lastApplied := 0;
              db := Temporal.empty_engine; crdtStore := CRDT.NewCRDTStore;
              dataDir := "data"; shutdownCh := false |} in
  state (raft_run r (replicate 3 OpTick)) = Leader
  ∧ state (raft_run (Join r "node2" "localhost:9001" "").1
                    (replicate 3 OpTick)) = Candidate.
Proof.
  intros r. split.
  - assert (in_int64 (currentTerm r)) as Hterm
      by (vm_compute; split; discriminate).
    destruct (candidate_ticks r 2 eq_refl Hterm) as [Halone _].
    destruct (Halone eq_refl) as (-> & Hleader & _). exact Hleader.
  - assert (in_int64 (currentTerm (Join r "node2" "localhost:9001" "").1))
      as Hterm by (vm_compute; split; discriminate).
    destruct (candidate_ticks (Join r "node2" "localhost:9001" "").1 2
                eq_refl Hterm) as [_ Hpeers].
    apply Hpeers. simpl. apply insert_non_empty.
Defined.

(** X16. [Join] records the peer and returns a nil error: the address is
    stored under the id, replacing an earlier address of that id, and the
    other peers stay. From then on the peer map is not empty, so an
    election started on the node leaves its state as it is. *)
Theorem Join_records_peer r id addr leaderAddr :
  (Join r id addr leaderAddr).2 = nil_error
  ∧ peers (Join r id addr leaderAddr).1 !! id = Some addr
  ∧ (∀ other, other ≠ id →
       peers (Join r id addr leaderAddr).1 !! other = peers r !! other)
  ∧ state (startElection (Join r id addr leaderAddr).1) = state r
  ∧ log (Join r id addr leaderAddr).1 = log r.
Proof.
  split; [done|]. simpl. split; [apply lookup_insert_eq|].
  split; [intros other Hne; by apply lookup_insert_ne|]. split; [|done].
  rewrite decide_False; [done|]. intros Hz.
  apply map_size_empty_iff in Hz. by apply insert_non_empty in Hz.
Qed.

Lemma Join_records_peer_witness :
  let r := (NewRaftNode "node1" 9000 "data" Temporal.empty_engine
              CRDT.NewCRDTStore).1 in
  peers (Join (Join r "node2" "localhost:9001" "").1 "node3" "localhost:9002" "").1
    !! "node2" = Some "localhost:9001".
Proof.
  intros r.
  destruct (Join_records_peer (Join r "node2" "localhost:9001" "").1
              "node3" "localhost:9002" "") as (_ & _ & Hother & _).
  rewrite Hother; [reflexivity | discriminate].
Defined.

End RaftRuns.

(** ** The HTTP handlers *)

Section Handlers.
Import API.

(** A handler returns the server as it was, or after one write to the
    engine, or after one write to the store. *)
Lemma serve_writes parse format s call :
  (serve parse format s call).1 = s
  ∨ (∃ db', (serve parse format s call).1 = write_db s db')
  ∨ (∃ c', (serve parse format s call).1 = write_crdt s c').
Proof.
  destruct call as [r|now1 now2 persist r|now1 now2 r|r|now1 now2 r|now r|r];
    simpl.
  - by left.
  - unfold handleInsert. destruct (decide (Method r = MethodPost)); [|by left].
    destruct (Body r) as [req|msg]; [|by left].
    unfold Temporal.Insert. destruct persist; right; left; eauto.
  - unfold handleQuery. destruct (decide (query_get r "key" = "")); [by left|].
    destruct (Temporal.QueryCurrent _ _ _ _) as [value [|]]; by left.
  - unfold handleHistory. destruct (decide (query_get r "key" = "")); by left.
  - unfold handleTemporal. destruct (decide (query_get r "key" = "")); [by left|].
    destruct (Temporal.QueryTemporal _ _ _ _) as [value found]; by left.
  - unfold handleStatus, Raft.GetState; simpl. by left.
  - unfold handleCounter. destruct (decide (query_get r "key" = "")); [by left|].
    destruct (decide (Method r = MethodPost)); [|by left].
    right; right; eauto.
Qed.

(** X17. The HTTP handlers never go through the Raft node: over any
    sequence of requests its log, its two indices, its state, its term, its
    vote and its peers are what they were, and the engine and the store
    stay the ones the node points at. *)
Theorem handlers_bypass_raft parse format s calls :
  let s' := serve_all parse format s calls in
  Raft.log (raftNode s') = Raft.log (raftNode s)
  ∧ Raft.commitIndex (raftNode s') = Raft.commitIndex (raftNode s)
  ∧ Raft.lastApplied (raftNode s') = Raft.lastApplied (raftNode s)
  ∧ Raft.state (raftNode s') = Raft.state (raftNode s)
  ∧ Raft.currentTerm (raftNode s') = Raft.currentTerm (raftNode s)
  ∧ Raft.votedFor (raftNode s') = Raft.votedFor (raftNode s)
  ∧ Raft.peers (raftNode s') = Raft.peers (raftNode s)
  ∧ Raft.nodeID (raftNode s') = Raft.nodeID (raftNode s)
  ∧ (shared s → shared s').
Proof.
  intros s'. subst s'. revert s.
  induction calls as [|call calls IH]; intros s; [done|].
  change (serve_all parse format s (call :: calls))
    with (serve_all parse format (serve parse format s call).1 calls).
  destruct (IH (serve parse format s call).1)
    as (H1 & H2 & H3 & H4 & H5 & H6 & H7 & H8 & H9).
  rewrite H1, H2, H3, H4, H5, H6, H7, H8.
  destruct (serve_writes parse format s call) as [E|[[db' E]|[c' E]]];
    rewrite E in *; repeat (split; [done|]); intros Hs.
  - by apply H9.
  - apply H9. split; [done | apply Hs].
  - apply H9. split; [apply Hs | done].
Qed.

Lemma handlers_bypass_raft_witness :
  let s := NewAPIServer 8080 Temporal.empty_engine
             (Raft.NewRaftNode "node1" 9000 "data" Temporal.empty_engine
                CRDT.NewCRDTStore).1 CRDT.NewCRDTStore in
  shared (serve_all (λ _, None) (λ _, "") s
            [CallCounter (post_counter "v");
             CallInsert 1 2 nil_error
               (post_insert {| body_key := "p"; body_value := Num 1;
                               body_valid_start := ""; body_valid_end := "" |})]).
Proof.
  intros s. apply (handlers_bypass_raft (λ _, None) (λ _, "") s). by split.
Defined.

(** X18. A rejected request changes nothing: when a handler answers with an
    error whose status is not 500 (a missing key, a wrong method, a body
    that does not decode), the server is as it was before the request. *)
Theorem rejected_request_changes_nothing parse format s call msg code :
  (serve parse format s call).2 = Error msg code →
  code ≠ StatusInternalServerError →
  (serve parse format s call).1 = s.
Proof.
  destruct call as [r|now1 now2 persist r|now1 now2 r|r|now1 now2 r|now r|r];
    simpl.
  - done.
  - unfold handleInsert. destruct (decide (Method r = MethodPost)); [|done].
    destruct (Body r) as [req|m]; [|done].
    unfold Temporal.Insert. destruct persist as [|m]; simpl; [done|].
    intros [= _ <-] Hcode. done.
  - unfold handleQuery. destruct (decide (query_get r "key" = "")); [done|].
    by destruct (Temporal.QueryCurrent _ _ _ _) as [value [|]].
  - unfold handleHistory. by destruct (decide (query_get r "key" = "")).
  - unfold handleTemporal. destruct (decide (query_get r "key" = "")); [done|].
    by destruct (Temporal.QueryTemporal _ _ _ _) as [value found].
  - unfold handleStatus, Raft.GetState; simpl. done.
  - unfold handleCounter. destruct (decide (query_get r "key" = "")); [done|].
    by destruct (decide (Method r = MethodPost)).
Qed.

Lemma rejected_request_changes_nothing_witness :
  let s := NewAPIServer 8080 Temporal.empty_engine
             (Raft.NewRaftNode "node1" 9000 "data" Temporal.empty_engine
                CRDT.NewCRDTStore).1 CRDT.NewCRDTStore in
  (serve (λ _, None) (λ _, "") s (CallCounter (post_counter ""))).1 = s.
Proof.
  intros s.
  apply (rejected_request_changes_nothing (λ _, None) (λ _, "") s
           (CallCounter (post_counter "")) "key parameter required"
           StatusBadRequest).
  - reflexivity.
  - discriminate.
Defined.

Lemma query_get_request key : query_get (get_request key) "key" = key.
Proof. unfold query_get, get_request; simpl. by rewrite lookup_singleton_eq. Qed.

Lemma query_post_counter key : query_get (post_counter key) "key" = key.
Proof. unfold query_get, post_counter; simpl. by rewrite lookup_singleton_eq. Qed.

Lemma handleInsert_post parse now1 now2 persist s req :
  (handleInsert parse now1 now2 persist s (post_insert req)).1 =
  write_db s
    (Temporal.Insert now2 persist (db s) (body_key req) (body_value req)
       (parse_or parse (body_valid_start req) now1)
       (parse_or parse (body_valid_end req) end_of_time)).1.
Proof.
  unfold handleInsert. rewrite decide_True by done. simpl.
  by destruct persist.
Qed.

(** X19. An insert that fails to persist is reported and kept: the handler
    answers with status 500 and the message of the error, and the record is
    in the history that the history handler returns afterwards. *)
Theorem failed_insert_is_kept parse now1 now2 msg s req :
  body_key req ≠ "" →
  let served := handleInsert parse now1 now2 (Errorf msg) s (post_insert req) in
  served.2 = Error msg StatusInternalServerError
  ∧ ∃ h, (handleHistory served.1 (get_request (body_key req))).2
         = Encode [("key", JString (body_key req)); ("history", JRecords h)]
         ∧ elems h =
           Temporal.history_of (db s) (body_key req) ++
           [{| Temporal.Key := body_key req;
               Temporal.Value := body_value req;
               Temporal.ValidTimeStart :=
                 parse_or parse (body_valid_start req) now1;
               Temporal.ValidTimeEnd :=
                 parse_or parse (body_valid_end req) end_of_time;
               Temporal.TransactionTime := now2;
               Temporal.Metadata := ∅ |}].
Proof.
  intros Hkey served. subst served. split.
  - unfold handleInsert. by rewrite decide_True.
  - rewrite handleInsert_post.
    set (db' := (Temporal.Insert now2 (Errorf msg) (db s) (body_key req)
                   (body_value req)
                   (parse_or parse (body_valid_start req) now1)
                   (parse_or parse (body_valid_end req) end_of_time)).1).
    unfold handleHistory. rewrite query_get_request.
    rewrite decide_False by done.
    exists (Temporal.GetHistory db' (body_key req)). split; [done|].
    rewrite GetHistory_stored_history_aux. apply history_of_Insert.
Qed.

Lemma failed_insert_is_kept_witness :
  let s := NewAPIServer 8080 Temporal.empty_engine
             (Raft.NewRaftNode "node1" 9000 "data" Temporal.empty_engine
                CRDT.NewCRDTStore).1 CRDT.NewCRDTStore in
  let req := {| body_key := "p"; body_value := Num 1;
                body_valid_start := ""; body_valid_end := "" |} in
  (handleInsert (λ _, None) 1 2 (Errorf "disk full") s (post_insert req)).2
  = Error "disk full" StatusInternalServerError.
Proof.
  intros s req.
  apply (failed_insert_is_kept (λ _, None) 1 2 "disk full" s req).
  discriminate.
Defined.

(** X20. What the command-line client inserts, it can query: after a POST
    of a key and a value without time bounds, a query for the key answers
    found with that value, provided the clock has moved past the reading
    the handler took as the start of validity, has not gone back behind the
    reading [Insert] took as recording time, and is before the end of the
    year 9999. The outcome of persisting plays no part. *)
Theorem client_insert_then_query parse now1 now2 persist s key value q1 q2 :
  key ≠ "" →
  now2 <= q1 →
  now1 < q2 →
  q2 < end_of_time →
  let req := {| body_key := key; body_value := value;
                body_valid_start := ""; body_valid_end := "" |} in
  let s' := (handleInsert parse now1 now2 persist s (post_insert req)).1 in
  (handleQuery q1 q2 s' (get_request key)).2
  = Encode [("found", JBool true); ("key", JString key);
            ("value", JAny value)].
Proof.
  intros Hkey Hq1 Hq2 Hend req s'. subst s' req.
  rewrite handleInsert_post. unfold handleQuery.
  rewrite query_get_request, decide_False by done.
  unfold Temporal.QueryCurrent.
  change (db (write_db s ?d)) with d.
  rewrite QueryTemporal_Insert.
  rewrite (proj2 (matches_qualifies _ _ _)); [done|].
  unfold Temporal.qualifies, parse_or; simpl. lia.
Qed.

Lemma client_insert_then_query_witness :
  let s := NewAPIServer 8080 Temporal.empty_engine
             (Raft.NewRaftNode "node1" 9000 "data" Temporal.empty_engine
                CRDT.NewCRDTStore).1 CRDT.NewCRDTStore in
  let req := {| body_key := "p"; body_value := Str "100";
                body_valid_start := ""; body_valid_end := "" |} in
  (handleQuery 5 6
     (handleInsert (λ _, None) 1 2 nil_error s (post_insert req)).1
     (get_request "p")).2
  = Encode [("found", JBool true); ("key", JString "p");
            ("value", JAny (Str "100"))].
Proof.
  intros s req.
  apply (client_insert_then_query (λ _, None) 1 2 nil_error s "p" (Str "100")
           5 6); [discriminate | lia | lia | vm_compute; reflexivity].
Defined.

Lemma serve_counter_post parse format s key :
  key ≠ "" →
  crdtStore (serve parse format s (CallCounter (post_counter key))).1
  = CRDT.IncrementCounter (crdtStore s) key (Raft.nodeID (raftNode s)) 1.
Proof.
  intros Hkey. unfold serve, handleCounter.
  rewrite query_post_counter, decide_False by done.
  by rewrite decide_True.
Qed.

Lemma serve_all_counter_posts parse format s key n :
  key ≠ "" →
  CRDT.GetCounter
    (crdtStore (serve_all parse format s
                  (replicate n (CallCounter (post_counter key))))) key
  = wrap64 (wrap64 (CRDT.GetCounter (crdtStore s) key) + Z.of_nat n).
Proof.
  intros Hkey. revert s. induction n as [|n IH]; intros s.
  { change (serve_all parse format s (replicate 0 _)) with s.
    by rewrite Z.add_0_r, !CRDT_GetCounter_wrapped. }
  change (replicate (S n) (CallCounter (post_counter key)))
    with (CallCounter (post_counter key)
          :: replicate n (CallCounter (post_counter key))).
  change (serve_all parse format s (?c :: ?cs))
    with (serve_all parse format (serve parse format s c).1 cs).
  rewrite IH, serve_counter_post by done.
  rewrite GetCounter_Increment_total, !wrap64_add_l. f_equal. lia.
Qed.

(** X21. The counter endpoint counts its POSTs: after n POSTs for a key a
    GET for the key answers the total before plus n, reduced to [int64];
    any method other than POST reads the counter. *)
Theorem counter_endpoint_counts parse format s key n method :
  key ≠ "" →
  method ≠ MethodPost →
  let s' := serve_all parse format s
              (replicate n (CallCounter (post_counter key))) in
  (handleCounter s'
     {| Method := method; Query := {[ "key" := key ]}; Body := inr "EOF" |}).2
  = Encode [("key", JString key);
            ("value",
             JInt (wrap64 (CRDT.GetCounter (crdtStore s) key + Z.of_nat n)))].
Proof.
  intros Hkey Hmethod s'. subst s'. unfold handleCounter.
  assert (query_get {| Method := method; Query := {[ "key" := key ]};
                       Body := inr "EOF" |} "key" = key) as ->.
  { unfold query_get; simpl. by rewrite lookup_singleton_eq. }
  rewrite decide_False by done. simpl. rewrite decide_False by done.
  rewrite serve_all_counter_posts by done. by rewrite wrap64_add_l.
Qed.

Lemma counter_endpoint_counts_witness :
  let s := NewAPIServer 8080 Temporal.empty_engine
             (Raft.NewRaftNode "node1" 9000 "data" Temporal.empty_engine
                CRDT.NewCRDTStore).1 CRDT.NewCRDTStore in
  (handleCounter
     (serve_all (λ _, None) (λ _, "") s
        (replicate 3 (CallCounter (post_counter "v"))))
     {| Method := "GET"; Query := {[ "key" := "v" ]}; Body := inr "EOF" |}).2
  = Encode [("key", JString "v"); ("value", JInt 3)].
Proof.
  intros s.
  rewrite (counter_endpoint_counts (λ _, None) (λ _, "") s "v" 3 "GET");
    [reflexivity | discriminate | discriminate].
Defined.

(** X22. The insert handler does not check the key. A POST with an empty
    key is stored under the empty key, while the query, history and
    temporal handlers answer every request for the empty key with status
    400: the record cannot be read back through the API. *)
Theorem empty_key_insert_unreadable parse format now1 now2 persist s req r
    q1 q2 :
  body_key req = "" →
  query_get r "key" = "" →
  let s' := (handleInsert parse now1 now2 persist s (post_insert req)).1 in
  length (Temporal.history_of (db s') "")
  = S (length (Temporal.history_of (db s) ""))
  ∧ (handleQuery q1 q2 s' r).2 = Error "key parameter required" StatusBadRequest
  ∧ (handleHistory s' r).2 = Error "key parameter required" StatusBadRequest
  ∧ (handleTemporal parse format q1 q2 s' r).2
    = Error "key parameter required" StatusBadRequest.
Proof.
  intros Hkey Hr s'. subst s'. rewrite handleInsert_post. split.
  - change (db (write_db s ?d)) with d.
    rewrite Hkey, history_of_Insert, length_app. simpl. lia.
  - unfold handleQuery, handleHistory, handleTemporal. rewrite Hr.
    by rewrite !decide_True.
Qed.

Lemma empty_key_insert_unreadable_witness :
  let s := NewAPIServer 8080 Temporal.empty_engine
             (Raft.NewRaftNode "node1" 9000 "data" Temporal.empty_engine
                CRDT.NewCRDTStore).1 CRDT.NewCRDTStore in
  let req := {| body_key := ""; body_value := Num 1;
                body_valid_start := ""; body_valid_end := "" |} in
  (handleHistory
     (handleInsert (λ _, None) 1 2 nil_error s (post_insert req)).1
     (get_request "")).2
  = Error "key parameter required" StatusBadRequest.
Proof.
  intros s req.
  apply (empty_key_insert_unreadable (λ _, None) (λ _, "") 1 2 nil_error s req
           (get_request "") 0 0); reflexivity.
Defined.

(** X23. Time bounds that do not parse are not rejected: the insert handler
    falls back, without a word, on the clock reading for the start of
    validity and on the end of the year 9999 for its end, exactly as if the
    bounds had been left out. *)
Theorem unparsable_bounds_defaulted parse now1 now2 persist s req :
  parse (body_valid_start req) = None →
  parse (body_valid_end req) = None →
  handleInsert parse now1 now2 persist s (post_insert req)
  = handleInsert parse now1 now2 persist s
      (post_insert {| body_key := body_key req; body_value := body_value req;
                      body_valid_start := ""; body_valid_end := "" |}).
Proof.
  intros Hs He. unfold handleInsert, parse_or; simpl.
  rewrite Hs, He. by destruct (decide _), (decide _).
Qed.

Lemma unparsable_bounds_defaulted_witness :
  let s := NewAPIServer 8080 Temporal.empty_engine
             (Raft.NewRaftNode "node1" 9000 "data" Temporal.empty_engine
                CRDT.NewCRDTStore).1 CRDT.NewCRDTStore in
  Temporal.history_of
    (db (handleInsert (λ _, None) 1 2 nil_error s
           (post_insert {| body_key := "p"; body_value := Num 1;
                           body_valid_start := "yesterday";
                           body_valid_end := "tomorrow" |})).1) "p"
  = [{| Temporal.Key := "p"; Temporal.Value := Num 1;
        Temporal.ValidTimeStart := 1; Temporal.ValidTimeEnd := end_of_time;
        Temporal.TransactionTime := 2; Temporal.Metadata := ∅ |}].
Proof.
  intros s.
  rewrite (unparsable_bounds_defaulted (λ _, None) 1 2 nil_error s
             {| body_key := "p"; body_value := Num 1;
                body_valid_start := "yesterday"; body_valid_end := "tomorrow" |}
             eq_refl eq_refl).
  reflexivity.
Defined.

(** X24. The process that [main] starts: the node and the server share one
    engine and one store, the node is a Follower in term 0 with an empty
    log, and no counter or register exists. Without the join flag the node
    has no peer; with it the node enters itself, under its own id and
    address, as its only peer. *)
Theorem main_start_wiring mkdir d nodeID httpPort raftPort join dataDir addr s :
  main_start mkdir d nodeID httpPort raftPort join dataDir addr = Some s →
  shared s
  ∧ Raft.state (raftNode s) = Raft.Follower
  ∧ Raft.currentTerm (raftNode s) = 0
  ∧ Raft.log (raftNode s) = []
  ∧ crdtStore s = CRDT.NewCRDTStore
  ∧ Raft.peers (raftNode s)
    = (if decide (join = "") then ∅ else {[ nodeID := addr ]}).
Proof.
  unfold main_start.
  destruct (Temporal.NewDBEngine mkdir d dataDir) as [[engine|] [|msg]];
    try done.
  simpl. intros [= <-]. destruct (decide (join = "")); simpl.
  - by repeat split.
  - by repeat split.
Qed.

Lemma main_start_wiring_witness :
  ∃ s, main_start nil_error Temporal.NoFile "node2" 8081 9001
         "localhost:9000" "data" "localhost:9001" = Some s
       ∧ Raft.peers (raftNode s) = {[ "node2" := "localhost:9001" ]}.
Proof.
  eexists. split; [reflexivity|].
  destruct (main_start_wiring nil_error Temporal.NoFile "node2" 8081 9001
              "localhost:9000" "data" "localhost:9001" _ eq_refl)
    as (_ & _ & _ & _ & _ & Hpeers).
  exact Hpeers.
Defined.

End Handlers.
